(** * The uncommitted-changes slice (hunk selection bookkeeping)

  A shallow embedding of the Redux slice [uncommittedSlice]: its three
  normalized collections (tree changes, hunk assignments, hunk
  selections), its reducers and its check-status selectors, followed by
  the properties of the selection tracker.

  Conventions.
  - An [EntityState<T, string>] of Redux Toolkit is the record
    [EntityState T]: the array [ids] and the object [entities] used as a
    map from id to entity.
  - A reducer that can [throw] returns a [Result]; a thrown reducer
    leaves the store as it was.
  - [string | null] is [option string]; a JS [number] holding a line
    number is a [Z]. *)

From Stdlib Require Import ZArith String.
From stdpp Require Import gmap strings list fin_maps pretty.

Local Open Scope string_scope.

(** ** Data model *)

(** [LineId] of [@gitbutler/ui/utils/diffParsing]: both sides may be
  [undefined]. *)
Record LineId := mkLineId { oldLine : option Z; newLine : option Z }.

(** [HunkHeader] of [$lib/hunks/hunk]. The slice never looks inside a
  header; it only passes it to [compositeKey] and tests it for [null]. *)
Record HunkHeader := mkHunkHeader {
  oldStart : Z; oldLines : Z; newStart : Z; newLines : Z }.

#[global] Instance LineId_eq_dec : EqDecision LineId.
Proof. solve_decision. Defined.
#[global] Instance HunkHeader_eq_dec : EqDecision HunkHeader.
Proof. solve_decision. Defined.

(** A file-level change, keyed by its path. *)
Module TreeChange.
Record t := mk { path : string; status : string }.
End TreeChange.

(** A hunk assignment: the fields the slice reads. [id] is the optional
  stable identifier. *)
Module HunkAssignment.
Record t := mk {
  id : option string;
  stackId : option string;
  path : string;
  hunkHeader : option HunkHeader }.
End HunkAssignment.

(** A hunk selection; [lines = []] means the whole hunk is selected. *)
Module HunkSelection.
Record t := mk {
  stableId : option string;
  stackId : option string;
  path : string;
  assignmentId : string;
  lines : list LineId }.

(** [{...selection, lines: ls}] *)
Definition withLines (s : t) (ls : list LineId) : t :=
  {| stableId := stableId s; stackId := stackId s; path := path s;
     assignmentId := assignmentId s; lines := ls |}.
End HunkSelection.

#[global] Instance HunkAssignment_eq_dec : EqDecision HunkAssignment.t.
Proof. solve_decision. Defined.
#[global] Instance HunkSelection_eq_dec : EqDecision HunkSelection.t.
Proof. solve_decision. Defined.

(** ** Errors *)

(** The two [throw] statements of the slice:
  [new Error(`Expected to find assignment: ${key} `)] and
  [new Error('Not implemented')]. *)
Inductive Error :=
  | ExpectedAssignment (key : string)
  | NotImplemented.

Inductive Result (A : Type) :=
  | Ok (a : A)
  | Throw (e : Error).
Arguments Ok {A} a.
Arguments Throw {A} e.

(** ** JavaScript helpers *)

(** [`${s}`] for [s : string | null]. *)
Definition template (s : option string) : string := default "null" s.

(** [a || b] for [a : string | null]: the empty string is falsy too. *)
Definition orElse (a : option string) (b : string) : string :=
  match a with
  | Some s => if decide (s = "") then b else s
  | None => b
  end.

(** [id.startsWith(prefix)] *)
Definition startsWith (id prefix : string) : bool := String.prefix prefix id.

(** [new Map(entries)]: a later entry replaces an earlier one with the same
  key. *)
Definition newMap {V : Type} (entries : list (string * V)) : gmap string V :=
  foldl (λ m kv, <[kv.1 := kv.2]> m) ∅ entries.

(** The property names every plain object inherits from
    [Object.prototype]: [name in {}] is true for each of them. *)
Definition objectPrototypeNames : list string :=
  ["constructor"; "__defineGetter__"; "__defineSetter__"; "hasOwnProperty";
   "__lookupGetter__"; "__lookupSetter__"; "isPrototypeOf";
   "propertyIsEnumerable"; "toString"; "valueOf"; "__proto__";
   "toLocaleString"].

Definition inherited (key : string) : bool :=
  bool_decide (key ∈ objectPrototypeNames).

(** ** Entity adapters *)

Record EntityState (T : Type) := mkEntityState {
  ids : list string;
  entities : gmap string T }.
Arguments mkEntityState {T} ids entities.
Arguments ids {T} e.
Arguments entities {T} e.

(** The unsorted entity adapter of Redux Toolkit, for an adapter whose
  [selectId] is the given function. *)
Section EntityAdapter.
Context {T : Type} (selectId : T → string).

Definition getInitialState : EntityState T := mkEntityState [] ∅.

(** [key in state.entities] for a key that is not a name inherited from
    [Object.prototype]: the key is one of the object's own keys. The
    composite keys of the assignments and selections are such keys (they
    hold the separators of the key format). *)
Definition hasKey (st : EntityState T) (key : string) : bool :=
  bool_decide (is_Some (entities st !! key)).

(** [key in state.entities] for any key: an own key of the object or a
    name it inherits. This is the test for a collection keyed by free
    text, as the tree changes are by their path. *)
Definition inEntities (st : EntityState T) (key : string) : bool :=
  hasKey st key || inherited key.

(** Adds the entity unless its id is already present. *)
Definition addOne (st : EntityState T) (e : T) : EntityState T :=
  let key := selectId e in
  if hasKey st key then st
  else mkEntityState (ids st ++ [key]) (<[key := e]> (entities st)).

Definition addMany (st : EntityState T) (es : list T) : EntityState T :=
  foldl addOne st es.

(** [addOne] and [addMany] for a collection keyed by free text: an entity
    whose id is an inherited name counts as present and is not added. *)
Definition addOneAnyKey (st : EntityState T) (e : T) : EntityState T :=
  let key := selectId e in
  if inEntities st key then st
  else mkEntityState (ids st ++ [key]) (<[key := e]> (entities st)).

Definition addManyAnyKey (st : EntityState T) (es : list T) : EntityState T :=
  foldl addOneAnyKey st es.

(** An existing entity is updated by merging the given fields into it;
    every caller in the slice passes a complete entity, so the merge is
    the given entity. An absent one is added. *)
Definition upsertOne (st : EntityState T) (e : T) : EntityState T :=
  let key := selectId e in
  if hasKey st key then mkEntityState (ids st) (<[key := e]> (entities st))
  else addOne st e.

(** Deletes every present key; the id array is re-filtered only when
    something was deleted. *)
Definition removeMany (st : EntityState T) (keys : list string)
  : EntityState T :=
  let '(ents, didMutate) :=
    foldl (λ (acc : gmap string T * bool) key,
             if bool_decide (is_Some (acc.1 !! key))
             then (delete key acc.1, true) else acc)
          (entities st, false) keys in
  if didMutate
  then mkEntityState
         (filter (λ id, is_Some (ents !! id)) (ids st)) ents
  else st.

Definition removeOne (st : EntityState T) (key : string) : EntityState T :=
  removeMany st [key].

Definition removeAll (st : EntityState T) : EntityState T :=
  mkEntityState [] ∅.

(** [ids.map(id => entities[id])]; in a well-formed entity state every id
    has its entity. *)
Definition selectAll (st : EntityState T) : list T :=
  omap (λ id, entities st !! id) (ids st).

Definition selectById (st : EntityState T) (key : string) : option T :=
  entities st !! key.
End EntityAdapter.

(** Modelled from the spec: [createSelectByPrefix] of
  [$lib/state/customSelectors] is not part of the sources; the spec
  describes it as the prefix-range selection over the composite string
  keys: the entities whose id starts with the prefix, in id order. *)
Definition selectByPrefix {T : Type} (st : EntityState T) (prefix : string)
  : list T :=
  omap (λ id, entities st !! id)
       (filter (λ id, startsWith id prefix = true) (ids st)).

(** ** The slice *)

Record UncommittedState := mkState {
  treeChanges : EntityState TreeChange.t;
  hunkAssignments : EntityState HunkAssignment.t;
  hunkSelection : EntityState HunkSelection.t }.

Inductive CheckboxStatus := checked | indeterminate | unchecked.

#[global] Instance CheckboxStatus_eq_dec : EqDecision CheckboxStatus.
Proof. solve_decision. Defined.

Section Uncommitted.

(** The key builders of [$lib/selection/entityAdapters], which the
    sources import but do not contain. The slice is embedded over any
    three such functions. [partialKey] has an optional path. *)
Variable compositeKey : option string → string → option HunkHeader → string.
Variable partialKey : option string → option string → string.
Variable prefixKey : option string → string → string.

(** [compositeKey(a)] for an assignment object. *)
Definition assignmentKey (a : HunkAssignment.t) : string :=
  compositeKey (HunkAssignment.stackId a) (HunkAssignment.path a)
               (HunkAssignment.hunkHeader a).

(** Modelled from the spec: the [selectId] functions of the three
    adapters are declared in the missing [entityAdapters] module. A tree
    change is keyed by its path, an assignment by the composite of
    (stackId, path, hunkHeader), a selection by its assignment-key
    reference (the slice removes selections by [assignmentId]). *)
Definition treeChangeId (c : TreeChange.t) : string := TreeChange.path c.

(** Modelled from the spec: the [selectId] of [hunkAssignmentAdapter], not
    in the sources; the spec keys an assignment by the composite of
    (stackId, path, hunkHeader), and the status selectors look selections
    up under [compositeKey(a)]. *)
Definition hunkAssignmentId : HunkAssignment.t → string := assignmentKey.

(** Modelled from the spec: the [selectId] of [hunkSelectionAdapter], not
    in the sources; a selection is kept under its assignment-key
    reference, the id by which the reducers remove it. *)
Definition hunkSelectionId (s : HunkSelection.t) : string :=
  HunkSelection.assignmentId s.

Definition initialState : UncommittedState :=
  mkState getInitialState getInitialState getInitialState.

(** [state.hunkSelection = s] *)
Definition setSelection (st : UncommittedState)
    (s : EntityState HunkSelection.t) : UncommittedState :=
  mkState (treeChanges st) (hunkAssignments st) s.

(** The selection object built by the check reducers. *)
Definition wholeHunk (stackId : option string) (a : HunkAssignment.t)
    (key : string) : HunkSelection.t :=
  {| HunkSelection.stableId := HunkAssignment.id a;
     HunkSelection.stackId := stackId;
     HunkSelection.path := HunkAssignment.path a;
     HunkSelection.assignmentId := key;
     HunkSelection.lines := [] |}.

Definition clearHunkSelection (st : UncommittedState)
    (stackId : option string) : UncommittedState :=
  setSelection st
    (removeMany (hunkSelection st)
       (filter (λ id, startsWith id (template stackId) = true)
               (ids (hunkSelection st)))).

(** [l.newLine !== line.newLine || l.oldLine !== line.oldLine] *)
Definition otherLine (line l : LineId) : Prop :=
  newLine l ≠ newLine line ∨ oldLine l ≠ oldLine line.

#[global] Instance otherLine_dec line l : Decision (otherLine line l).
Proof. unfold otherLine. apply _. Defined.

Definition checkLine (st : UncommittedState) (stackId : option string)
    (path : string) (hunkHeader : HunkHeader) (line : LineId)
  : Result UncommittedState :=
  let key := compositeKey stackId path (Some hunkHeader) in
  match selectById (hunkSelection st) key with
  | Some selection =>
      Ok (setSelection st
            (upsertOne hunkSelectionId (hunkSelection st)
               (HunkSelection.withLines selection
                  (HunkSelection.lines selection ++ [line]))))
  | None =>
      match selectById (hunkAssignments st) key with
      | None => Throw (ExpectedAssignment key)
      | Some assignment =>
          Ok (setSelection st
                (addOne hunkSelectionId (hunkSelection st)
                   {| HunkSelection.stableId := HunkAssignment.id assignment;
                      HunkSelection.stackId := stackId;
                      HunkSelection.path := HunkAssignment.path assignment;
                      HunkSelection.assignmentId := key;
                      HunkSelection.lines := [line] |}))
      end
  end.

(** The tail shared by both branches of [uncheckLine]: update the
    selection when lines remain, remove it otherwise. *)
Definition storeLines (st : UncommittedState) (selection : HunkSelection.t)
    (remaining : list LineId) : UncommittedState :=
  if bool_decide (0 < length remaining)%nat
  then setSelection st
         (upsertOne hunkSelectionId (hunkSelection st)
            (HunkSelection.withLines selection remaining))
  else setSelection st
         (removeOne (hunkSelection st)
            (HunkSelection.assignmentId selection)).

(** The [uncheckLine] reducer as it runs. The payload annotation gives
    [hunkHeader] as a [HunkHeader], but annotations are erased and
    [compositeKey] takes a header or [null]; the key of a whole-file
    selection is the one built with a null header. *)
Definition uncheckLineUntyped (st : UncommittedState)
    (stackId : option string) (path : string)
    (hunkHeader : option HunkHeader) (line : LineId)
    (allLinesInHunk : list LineId) : Result UncommittedState :=
  let key := compositeKey stackId path hunkHeader in
  match selectById (hunkSelection st) key with
  | Some selection =>
      match selectById (hunkAssignments st)
              (HunkSelection.assignmentId selection) with
      | None => Throw (ExpectedAssignment key)
      | Some assignment =>
          match HunkAssignment.hunkHeader assignment with
          | None => Throw NotImplemented
          | Some _ =>
              if bool_decide (length (HunkSelection.lines selection) = 0%nat)
              then Ok (storeLines st selection
                         (filter (otherLine line) allLinesInHunk))
              else Ok (storeLines st selection
                         (filter (otherLine line)
                                 (HunkSelection.lines selection)))
          end
      end
  | None => Ok st
  end.

(** [uncheckLine] with the payload as annotated: a header that is not
    null. *)
Definition uncheckLine (st : UncommittedState) (stackId : option string)
    (path : string) (hunkHeader : HunkHeader) (line : LineId)
    (allLinesInHunk : list LineId) : Result UncommittedState :=
  uncheckLineUntyped st stackId path (Some hunkHeader) line allLinesInHunk.

Definition checkHunk (st : UncommittedState) (stackId : option string)
    (path : string) (hunkHeader : option HunkHeader) : UncommittedState :=
  let key := compositeKey stackId path hunkHeader in
  match selectById (hunkAssignments st) key with
  | Some assignment =>
      setSelection st
        (upsertOne hunkSelectionId (hunkSelection st)
           (wholeHunk stackId assignment key))
  | None => st
  end.

Definition uncheckHunk (st : UncommittedState) (stackId : option string)
    (path : string) (hunkHeader : option HunkHeader) : UncommittedState :=
  setSelection st
    (removeOne (hunkSelection st) (compositeKey stackId path hunkHeader)).

(** The loop shared by [checkFile], [checkDir] and [checkStack]. *)
Definition checkAll (st : UncommittedState) (stackId : option string)
    (assignments : list HunkAssignment.t) : UncommittedState :=
  foldl (λ st assignment,
           setSelection st
             (upsertOne hunkSelectionId (hunkSelection st)
                (wholeHunk stackId assignment
                   (hunkAssignmentId assignment))))
        st assignments.

(** The body shared by [uncheckFile], [uncheckDir] and [uncheckStack]. *)
Definition uncheckPrefix (st : UncommittedState) (prefix : string)
  : UncommittedState :=
  setSelection st
    (removeMany (hunkSelection st)
       (map HunkSelection.assignmentId
            (selectByPrefix (hunkSelection st) prefix))).

Definition checkFile (st : UncommittedState) (stackId : option string)
    (path : string) : UncommittedState :=
  checkAll st stackId
    (selectByPrefix (hunkAssignments st) (partialKey stackId (Some path))).

Definition uncheckFile (st : UncommittedState) (stackId : option string)
    (path : string) : UncommittedState :=
  uncheckPrefix st (partialKey stackId (Some path)).

Definition checkDir (st : UncommittedState) (stackId : option string)
    (path : string) : UncommittedState :=
  checkAll st stackId
    (selectByPrefix (hunkAssignments st) (prefixKey stackId path)).

Definition uncheckDir (st : UncommittedState) (stackId : option string)
    (path : string) : UncommittedState :=
  uncheckPrefix st (prefixKey stackId path).

Definition checkStack (st : UncommittedState) (stackId : option string)
  : UncommittedState :=
  checkAll st stackId
    (selectByPrefix (hunkAssignments st) (partialKey stackId None)).

Definition uncheckStack (st : UncommittedState) (stackId : option string)
  : UncommittedState :=
  uncheckPrefix st (partialKey stackId None).

(** [a.id || compositeKey(a)]: the key of the re-linking map. *)
Definition linkKey (a : HunkAssignment.t) : string :=
  orElse (HunkAssignment.id a) (assignmentKey a).

(** [old.stableId || old.assignmentId] *)
Definition oldLinkKey (old : HunkSelection.t) : string :=
  orElse (HunkSelection.stableId old) (HunkSelection.assignmentId old).

(** The selection [updateAssignments] builds for a re-linked assignment. *)
Definition relinked (a : HunkAssignment.t) : HunkSelection.t :=
  {| HunkSelection.stableId := HunkAssignment.id a;
     HunkSelection.assignmentId := assignmentKey a;
     HunkSelection.stackId := HunkAssignment.stackId a;
     HunkSelection.path := HunkAssignment.path a;
     HunkSelection.lines := [] |}.

Definition updateAssignments (st : UncommittedState)
    (assignments : list HunkAssignment.t) (changes : list TreeChange.t)
  : UncommittedState :=
  let treeChanges' := addManyAnyKey treeChangeId getInitialState changes in
  let hunkAssignments' :=
    addMany hunkAssignmentId getInitialState assignments in
  let oldSelections := selectAll (hunkSelection st) in
  let newAssignments := newMap (map (λ a, (linkKey a, a)) assignments) in
  mkState treeChanges' hunkAssignments'
    (foldl (λ sel old,
              match newAssignments !! oldLinkKey old with
              | Some newAssignment =>
                  addOne hunkSelectionId sel (relinked newAssignment)
              | None => sel
              end)
           (removeAll (hunkSelection st)) oldSelections).

(** The [update] reducer. *)
Definition update := updateAssignments.

(** ** Selectors *)

Definition hunkCheckStatus (st : UncommittedState)
    (stackId : option string) (path : string) (hunkHeader : HunkHeader)
  : bool * list LineId :=
  match entities (hunkSelection st)
          !! compositeKey stackId path (Some hunkHeader) with
  | None => (false, [])
  | Some selection => (true, HunkSelection.lines selection)
  end.

Definition fileCheckStatus (st : UncommittedState)
    (stackId : option string) (path : string) : CheckboxStatus :=
  let prefix := partialKey stackId (Some path) in
  let selection := selectByPrefix (hunkSelection st) prefix in
  let stackAssignments := selectByPrefix (hunkAssignments st) prefix in
  if bool_decide (length selection = 0%nat) then unchecked
  else if bool_decide (length selection = length stackAssignments)
          && forallb (λ s, bool_decide (length (HunkSelection.lines s) = 0%nat))
                     selection
  then checked
  else indeterminate.

(** The body shared by [folderCheckStatus] and [stackCheckStatus]. *)
Definition prefixCheckStatus (st : UncommittedState) (prefix : string)
  : CheckboxStatus :=
  let matches := selectByPrefix (hunkAssignments st) prefix in
  let selected a := hasKey (hunkSelection st) (assignmentKey a) in
  if bool_decide (length matches = 0%nat) then unchecked
  else if forallb selected matches then checked
  else if existsb selected matches then indeterminate
  else unchecked.

Definition folderCheckStatus (st : UncommittedState)
    (stackId : option string) (path : string) : CheckboxStatus :=
  prefixCheckStatus st (prefixKey stackId path).

Definition stackCheckStatus (st : UncommittedState)
    (stackId : option string) : CheckboxStatus :=
  prefixCheckStatus st (partialKey stackId None).

(** ** Dispatch *)

Inductive Action :=
  | ClearHunkSelection (stackId : option string)
  | Update (assignments : list HunkAssignment.t) (changes : list TreeChange.t)
  | CheckLine (stackId : option string) (path : string)
      (hunkHeader : HunkHeader) (line : LineId)
  | UncheckLine (stackId : option string) (path : string)
      (hunkHeader : HunkHeader) (line : LineId) (allLinesInHunk : list LineId)
  | CheckHunk (stackId : option string) (path : string)
      (hunkHeader : option HunkHeader)
  | UncheckHunk (stackId : option string) (path : string)
      (hunkHeader : option HunkHeader)
  | CheckFile (stackId : option string) (path : string)
  | UncheckFile (stackId : option string) (path : string)
  | CheckDir (stackId : option string) (path : string)
  | UncheckDir (stackId : option string) (path : string)
  | CheckStack (stackId : option string)
  | UncheckStack (stackId : option string).

Definition reduce (st : UncommittedState) (a : Action)
  : Result UncommittedState :=
  match a with
  | ClearHunkSelection s => Ok (clearHunkSelection st s)
  | Update assignments changes => Ok (update st assignments changes)
  | CheckLine s p h l => checkLine st s p h l
  | UncheckLine s p h l all => uncheckLine st s p h l all
  | CheckHunk s p h => Ok (checkHunk st s p h)
  | UncheckHunk s p h => Ok (uncheckHunk st s p h)
  | CheckFile s p => Ok (checkFile st s p)
  | UncheckFile s p => Ok (uncheckFile st s p)
  | CheckDir s p => Ok (checkDir st s p)
  | UncheckDir s p => Ok (uncheckDir st s p)
  | CheckStack s => Ok (checkStack st s)
  | UncheckStack s => Ok (uncheckStack st s)
  end.

(** The states the store can be in: a throwing reducer makes no step. *)
Inductive reachable : UncommittedState → Prop :=
  | reachable_init : reachable initialState
  | reachable_step st a st' :
      reachable st → reduce st a = Ok st' → reachable st'.

(** The store after dispatching an action, and after a sequence of
    actions. *)
Definition dispatch (st : UncommittedState) (a : Action) : UncommittedState :=
  match reduce st a with
  | Ok st' => st'
  | Throw _ => st
  end.

Definition dispatchAll (st : UncommittedState) (actions : list Action)
  : UncommittedState :=
  foldl dispatch st actions.

End Uncommitted.

(** ** A concrete key scheme *)

(** Modelled from the spec: the key builders [compositeKey], [partialKey]
  and [prefixKey] of the missing [entityAdapters] module. The spec gives
  the full key as [stackId|path|hunkHeaderSerialization] with a sentinel
  for a null stack id and for a null hunk header, the partial key as the
  prefix of the full key ending after the path, and the prefix key as
  the prefix ending inside the path. The sentinel is taken to be the
  text [null] and a header is serialized as its four numbers. *)
Module SpecKeys.
(** Modelled from the spec: the serialization of a hunk header inside a
    key, with the sentinel for a null header. *)
Definition headerKey (h : option HunkHeader) : string :=
  match h with
  | None => "null"
  | Some h =>
      pretty (oldStart h) +:+ ":" +:+ pretty (oldLines h) +:+ ":" +:+
      pretty (newStart h) +:+ ":" +:+ pretty (newLines h)
  end.

(** Modelled from the spec: the full key
    [stackId|path|hunkHeaderSerialization]. *)
Definition compositeKey (stackId : option string) (path : string)
    (hunkHeader : option HunkHeader) : string :=
  template stackId +:+ "|" +:+ path +:+ "|" +:+ headerKey hunkHeader.

(** Modelled from the spec: the prefix of the full key ending after the
    path, or after the stack id when no path is given. *)
Definition partialKey (stackId : option string) (path : option string)
  : string :=
  match path with
  | Some p => template stackId +:+ "|" +:+ p +:+ "|"
  | None => template stackId +:+ "|"
  end.

(** Modelled from the spec: the prefix of the full key ending with the
    given directory path. *)
Definition prefixKey (stackId : option string) (path : string) : string :=
  template stackId +:+ "|" +:+ path.
End SpecKeys.

(** ** A scenario

    The scenario of the spec: stack [a] holds two hunks of [f.txt]; a
    whole-file assignment of an image is added to it. The states are
    those the store goes through from the initial state. *)
Module Scenario.
Import SpecKeys.

Definition H1 : HunkHeader := mkHunkHeader 1 3 1 4.
Definition H2 : HunkHeader := mkHunkHeader 10 2 11 2.

Definition L1 : LineId := mkLineId None (Some 1%Z).
Definition L2 : LineId := mkLineId (Some 2%Z) (Some 2%Z).
Definition L3 : LineId := mkLineId (Some 3%Z) None.

Definition hunk1 : HunkAssignment.t :=
  HunkAssignment.mk (Some "S1") (Some "a") "f.txt" (Some H1).
Definition hunk2 : HunkAssignment.t :=
  HunkAssignment.mk None (Some "a") "f.txt" (Some H2).
Definition image : HunkAssignment.t :=
  HunkAssignment.mk None (Some "a") "img.png" None.

Definition changes : list TreeChange.t :=
  [TreeChange.mk "f.txt" "modified"; TreeChange.mk "img.png" "added"].

Definition run (actions : list (Action)) : UncommittedState :=
  dispatchAll compositeKey partialKey prefixKey initialState actions.

Definition load : Action := Update [hunk1; hunk2; image] changes.

(** The snapshot with nothing selected. *)
Definition snapshot : UncommittedState := run [load].
(** The first hunk selected as a whole. *)
Definition oneHunk : UncommittedState :=
  run [load; CheckHunk (Some "a") "f.txt" (Some H1)].
(** One line of the first hunk selected. *)
Definition oneLine : UncommittedState :=
  run [load; CheckLine (Some "a") "f.txt" H1 L1].

(** The image, a whole-file assignment, selected. *)
Definition wholeImage : UncommittedState :=
  run [load; CheckHunk (Some "a") "img.png" None].
End Scenario.

(** * Properties *)

(** ** The entity adapter *)

Section EntityAdapterFacts.
Context {T : Type} (selectId : T → string).
Implicit Types (st : EntityState T) (e : T) (k key : string).

(** What the adapter maintains: the id array has no duplicates, lists
    exactly the keys of [entities], and every entity sits under its own
    id. *)
Definition wf_entities st : Prop :=
  NoDup (ids st)
  ∧ (∀ k, k ∈ ids st ↔ is_Some (entities st !! k))
  ∧ (∀ k e, entities st !! k = Some e → selectId e = k).

Lemma hasKey_true st k : hasKey st k = true ↔ is_Some (entities st !! k).
Proof. unfold hasKey. apply bool_decide_eq_true. Qed.

Lemma hasKey_false st k : hasKey st k = false ↔ entities st !! k = None.
Proof.
  unfold hasKey. rewrite bool_decide_eq_false, eq_None_not_Some. done.
Qed.

Lemma wf_initial : wf_entities (getInitialState (T:=T)).
Proof.
  split; [constructor|]. split.
  - intros k. simpl. rewrite lookup_empty. split.
    + intros H. by apply elem_of_nil in H.
    + intros [? H]. discriminate.
  - intros k e. simpl. rewrite lookup_empty. discriminate.
Qed.

Lemma addOne_lookup st e k :
  entities (addOne selectId st e) !! k =
    match entities st !! k with
    | Some x => Some x
    | None => if decide (k = selectId e) then Some e else None
    end.
Proof.
  unfold addOne. destruct (hasKey st (selectId e)) eqn:Hk.
  - apply hasKey_true in Hk as [x Hx].
    destruct (entities st !! k) eqn:Hl; [done|].
    case_decide; [congruence|done].
  - apply hasKey_false in Hk. simpl.
    destruct (decide (k = selectId e)) as [->|Hne].
    + by rewrite lookup_insert_eq, Hk.
    + rewrite lookup_insert_ne by done. by destruct (entities st !! k).
Qed.

Lemma addOne_ids st e k :
  k ∈ ids (addOne selectId st e) ↔
    k ∈ ids st ∨ (k = selectId e ∧ entities st !! k = None).
Proof.
  unfold addOne. destruct (hasKey st (selectId e)) eqn:Hk.
  - apply hasKey_true in Hk as [x Hx]. split; [by left|].
    intros [?|[-> ?]]; [done|congruence].
  - apply hasKey_false in Hk. simpl. rewrite elem_of_app, list_elem_of_singleton.
    split; (intros [?|?]; [by left|right]).
    + by subst.
    + tauto.
Qed.

Lemma wf_addOne st e : wf_entities st → wf_entities (addOne selectId st e).
Proof.
  intros (Hnd & Hdom & Hid). split; [|split].
  - unfold addOne. destruct (hasKey st (selectId e)) eqn:Hk; [done|].
    apply hasKey_false in Hk. simpl. apply NoDup_app. split; [done|].
    split; [|apply NoDup_singleton].
    intros x Hx ->%list_elem_of_singleton.
    apply Hdom in Hx as [? Hx]. congruence.
  - intros k. rewrite addOne_ids, addOne_lookup, Hdom.
    destruct (entities st !! k) eqn:Hl.
    + split; [eauto|]. intros _. left. eauto.
    + case_decide.
      * split; [eauto|]. intros _. by right.
      * split; [|by intros [? ?]]. intros [[? ?]|[? _]]; [done|done].
  - intros k x. rewrite addOne_lookup.
    destruct (entities st !! k) eqn:Hl.
    + intros [= <-]. by apply Hid.
    + case_decide; [|done]. by intros [= <-].
Qed.

Lemma wf_addMany st es : wf_entities st → wf_entities (addMany selectId st es).
Proof.
  unfold addMany. revert st.
  induction es as [|e es IH]; intros st Hwf; [done|].
  simpl. by apply IH, wf_addOne.
Qed.

(** [addMany] keeps, for every id, the first entity that carries it. *)
Lemma addMany_lookup st es k :
  entities (addMany selectId st es) !! k =
    match entities st !! k with
    | Some x => Some x
    | None => head (filter (λ e, selectId e = k) es)
    end.
Proof.
  unfold addMany. revert st.
  induction es as [|e es IH]; intros st; simpl.
  - by destruct (entities st !! k).
  - rewrite IH, addOne_lookup. destruct (entities st !! k) eqn:Hl.
    + done.
    + rewrite filter_cons. case_decide; subst.
      * by rewrite decide_True.
      * by rewrite decide_False by done.
Qed.

Lemma addOneAnyKey_eq st e :
  addOneAnyKey selectId st e =
    if inherited (selectId e) then st else addOne selectId st e.
Proof.
  unfold addOneAnyKey, addOne, inEntities.
  by destruct (hasKey st (selectId e)), (inherited (selectId e)).
Qed.

(** Adding to a collection keyed by free text adds the entities whose id is
    no inherited name. *)
Lemma addManyAnyKey_filter st es :
  addManyAnyKey selectId st es =
    addMany selectId st (filter (λ e, inherited (selectId e) = false) es).
Proof.
  unfold addManyAnyKey, addMany. revert st.
  induction es as [|e es IH]; intros st; [done|]. simpl.
  rewrite IH, addOneAnyKey_eq, filter_cons.
  destruct (inherited (selectId e)) eqn:Hi.
  - by rewrite decide_False.
  - by rewrite decide_True.
Qed.

Lemma wf_addManyAnyKey st es :
  wf_entities st → wf_entities (addManyAnyKey selectId st es).
Proof. rewrite addManyAnyKey_filter. apply wf_addMany. Qed.


Lemma upsertOne_lookup st e k :
  entities (upsertOne selectId st e) !! k =
    if decide (k = selectId e) then Some e else entities st !! k.
Proof.
  unfold upsertOne. destruct (hasKey st (selectId e)) eqn:Hk.
  - simpl. case_decide; subst.
    + by rewrite lookup_insert_eq.
    + by rewrite lookup_insert_ne.
  - rewrite addOne_lookup. apply hasKey_false in Hk.
    case_decide; subst.
    + by rewrite Hk.
    + by destruct (entities st !! k).
Qed.

Lemma wf_upsertOne st e : wf_entities st → wf_entities (upsertOne selectId st e).
Proof.
  intros Hwf. unfold upsertOne.
  destruct (hasKey st (selectId e)) eqn:Hk; [|by apply wf_addOne].
  apply hasKey_true in Hk. destruct Hwf as (Hnd & Hdom & Hid).
  split; [done|]. split; simpl.
  - intros k. rewrite Hdom. destruct (decide (k = selectId e)) as [->|Hne].
    + rewrite lookup_insert_eq. split; eauto.
    + by rewrite lookup_insert_ne.
  - intros k x. destruct (decide (k = selectId e)) as [->|Hne].
    + rewrite lookup_insert_eq. by intros [= <-].
    + rewrite lookup_insert_ne by done. apply Hid.
Qed.

(** Upserting an entity that is already stored changes nothing. *)
Lemma upsertOne_idem st e :
  upsertOne selectId (upsertOne selectId st e) e = upsertOne selectId st e.
Proof.
  assert (Hin : hasKey (upsertOne selectId st e) (selectId e) = true).
  { apply hasKey_true. rewrite upsertOne_lookup, decide_True by done. eauto. }
  unfold upsertOne at 1. rewrite Hin.
  destruct (upsertOne selectId st e) as [l es] eqn:Hu. simpl. f_equal.
  apply insert_id.
  change es with (entities (mkEntityState l es)). rewrite <- Hu.
  by rewrite upsertOne_lookup, decide_True.
Qed.

(** The loop of [removeMany]. *)
Definition removeLoop (acc : gmap string T * bool) (keys : list string)
  : gmap string T * bool :=
  foldl (λ (acc : gmap string T * bool) key,
           if bool_decide (is_Some (acc.1 !! key))
           then (delete key acc.1, true) else acc)
        acc keys.

Lemma removeLoop_lookup m d keys k :
  (removeLoop (m, d) keys).1 !! k = if decide (k ∈ keys) then None else m !! k.
Proof.
  unfold removeLoop. revert m d.
  induction keys as [|x keys IH]; intros m d; simpl.
  - done.
  - case_bool_decide as Hx; rewrite IH.
    + destruct (decide (k ∈ keys)) as [Hin|Hin].
      * rewrite decide_True; [done|]. by right.
      * destruct (decide (k = x)) as [->|Hne].
        -- rewrite lookup_delete_eq, decide_True; [done|]. by left.
        -- rewrite lookup_delete_ne by done. rewrite decide_False; [done|].
           intros [?|?]%elem_of_cons; done.
    + destruct (decide (k ∈ keys)) as [Hin|Hin].
      * rewrite decide_True; [done|]. by right.
      * destruct (decide (k = x)) as [->|Hne].
        -- rewrite decide_True by (by left).
           by apply eq_None_not_Some.
        -- rewrite decide_False; [done|].
           intros [?|?]%elem_of_cons; done.
Qed.

Lemma removeLoop_unchanged m d keys :
  (removeLoop (m, d) keys).2 = false → removeLoop (m, d) keys = (m, false).
Proof.
  unfold removeLoop. revert m d.
  induction keys as [|x keys IH]; intros m d; simpl.
  - by intros ->.
  - case_bool_decide as Hx; [|apply IH].
    intros H. exfalso. revert H. generalize (delete x m). clear.
    induction keys as [|y keys IH]; intros m'; simpl; [done|].
    case_bool_decide; apply IH.
Qed.

Lemma removeMany_lookup st keys k :
  entities (removeMany st keys) !! k =
    if decide (k ∈ keys) then None else entities st !! k.
Proof.
  unfold removeMany. fold (removeLoop (entities st, false) keys).
  pose proof (removeLoop_lookup (entities st) false keys k) as Hl.
  pose proof (removeLoop_unchanged (entities st) false keys) as Hu.
  destruct (removeLoop (entities st, false) keys) as [ents [|]]; simpl in *.
  - done.
  - specialize (Hu eq_refl). by injection Hu as ->.
Qed.

Lemma removeMany_ids st keys k :
  wf_entities st →
  k ∈ ids (removeMany st keys) ↔ k ∈ ids st ∧ k ∉ keys.
Proof.
  intros (Hnd & Hdom & Hid).
  pose proof (removeMany_lookup st keys k) as Hl. revert Hl.
  unfold removeMany. fold (removeLoop (entities st, false) keys).
  destruct (removeLoop (entities st, false) keys) as [ents [|]]; simpl.
  - intros Hl. rewrite list_elem_of_filter, Hl.
    destruct (decide (k ∈ keys)) as [Hin|Hin].
    + split; [intros [[? ?] _]; done|tauto].
    + rewrite <- Hdom. tauto.
  - intros Hl. split; [|tauto]. intros Hk. split; [done|].
    apply Hdom in Hk as [x Hx]. rewrite Hx in Hl.
    by destruct (decide (k ∈ keys)).
Qed.

Lemma wf_removeMany st keys : wf_entities st → wf_entities (removeMany st keys).
Proof.
  intros Hwf. split; [|split].
  - destruct Hwf as (Hnd & _).
    unfold removeMany. fold (removeLoop (entities st, false) keys).
    destruct (removeLoop (entities st, false) keys) as [ents [|]]; simpl.
    + by apply NoDup_filter.
    + done.
  - intros k. rewrite removeMany_ids, removeMany_lookup by done.
    destruct Hwf as (_ & Hdom & _). rewrite Hdom.
    destruct (decide (k ∈ keys)).
    + split; [tauto|]. by intros [? ?].
    + tauto.
  - intros k x. rewrite removeMany_lookup. destruct Hwf as (_ & _ & Hid).
    destruct (decide (k ∈ keys)); [done|]. apply Hid.
Qed.

Lemma removeOne_lookup st key k :
  entities (removeOne st key) !! k =
    if decide (k = key) then None else entities st !! k.
Proof.
  unfold removeOne. rewrite removeMany_lookup.
  destruct (decide (k = key)) as [->|Hne].
  - rewrite decide_True; [done|]. by left.
  - rewrite decide_False; [done|]. by intros ->%list_elem_of_singleton.
Qed.
End EntityAdapterFacts.

(** ** Selecting by list and by prefix *)

Section SelectFacts.
Context {T : Type}.
Implicit Types (st : EntityState T) (e : T) (k prefix : string).

Lemma elem_of_selectAll st e :
  e ∈ selectAll st ↔ ∃ k, k ∈ ids st ∧ entities st !! k = Some e.
Proof. unfold selectAll. by rewrite list_elem_of_omap. Qed.

Lemma elem_of_selectByPrefix st prefix e :
  e ∈ selectByPrefix st prefix ↔
    ∃ k, k ∈ ids st ∧ startsWith k prefix = true ∧ entities st !! k = Some e.
Proof.
  unfold selectByPrefix. rewrite list_elem_of_omap. split.
  - intros (k & [? ?]%list_elem_of_filter & ?). eauto.
  - intros (k & ? & ? & ?). exists k. by rewrite list_elem_of_filter.
Qed.

Lemma length_omap_total (f : string → option T) (l : list string) :
  (∀ k, k ∈ l → is_Some (f k)) → length (omap f l) = length l.
Proof.
  induction l as [|x l IH]; intros Hall; [done|]. simpl.
  destruct (Hall x) as [y ->]; [by left|]. simpl. f_equal.
  apply IH. intros k Hk. apply Hall. by right.
Qed.

Lemma length_selectByPrefix st prefix :
  (∀ k, k ∈ ids st → is_Some (entities st !! k)) →
  length (selectByPrefix st prefix) =
    length (filter (λ id, startsWith id prefix = true) (ids st)).
Proof.
  intros Hdom. unfold selectByPrefix. apply length_omap_total.
  intros k [_ Hk]%list_elem_of_filter. by apply Hdom.
Qed.
End SelectFacts.

(** A [Map] built from entries holds, under each key, a value that one of
  the entries gave it; a key no entry carries is absent. *)
Lemma newMap_lookup_Some {V : Type} (entries : list (string * V)) k v :
  newMap entries !! k = Some v → (k, v) ∈ entries.
Proof.
  unfold newMap.
  assert (Hgen : ∀ m : gmap string V,
            foldl (λ m kv, <[kv.1 := kv.2]> m) m entries !! k = Some v →
            m !! k = Some v ∨ (k, v) ∈ entries).
  { induction entries as [|[k' v'] entries IH]; intros m; simpl; [by left|].
    intros [H|H]%IH.
    - destruct (decide (k' = k)) as [->|Hne].
      + rewrite lookup_insert_eq in H. injection H as ->. right. by left.
      + rewrite lookup_insert_ne in H by done. by left.
    - right. by right. }
  intros [H|H]%Hgen; [|done]. by rewrite lookup_empty in H.
Qed.


(** ** The invariant of the store *)

Section SliceFacts.
Variable compositeKey : option string → string → option HunkHeader → string.
Variable partialKey : option string → option string → string.
Variable prefixKey : option string → string → string.

Implicit Types (st : UncommittedState) (s : EntityState HunkSelection.t).

(** Each collection is a well-formed entity state, and every selection
    sits under the key of an assignment of the same state. *)
Definition state_inv st : Prop :=
  wf_entities treeChangeId (treeChanges st)
  ∧ wf_entities (hunkAssignmentId compositeKey) (hunkAssignments st)
  ∧ wf_entities hunkSelectionId (hunkSelection st)
  ∧ (∀ k, is_Some (entities (hunkSelection st) !! k) →
          is_Some (entities (hunkAssignments st) !! k)).

Lemma state_inv_initial : state_inv initialState.
Proof.
  unfold state_inv. split; [apply wf_initial|].
  split; [apply wf_initial|]. split; [apply wf_initial|].
  intros k. simpl. rewrite lookup_empty. by intros [? ?].
Qed.

Lemma state_inv_setSelection st s :
  state_inv st →
  wf_entities hunkSelectionId s →
  (∀ k, is_Some (entities s !! k) →
        is_Some (entities (hunkAssignments st) !! k)) →
  state_inv (setSelection st s).
Proof.
  intros (? & ? & ? & ?) ? ?. unfold state_inv.
  split; [done|]. split; [done|]. by split.
Qed.

Lemma state_inv_removeMany st keys :
  state_inv st → state_inv (setSelection st (removeMany (hunkSelection st) keys)).
Proof.
  intros Hinv. pose proof Hinv as (? & ? & ? & Hsub).
  apply state_inv_setSelection; [done|by apply wf_removeMany|].
  intros k. rewrite removeMany_lookup.
  destruct (decide (k ∈ keys)); [by intros [? ?]|apply Hsub].
Qed.

Lemma state_inv_upsertOne st e :
  state_inv st →
  is_Some (entities (hunkAssignments st) !! HunkSelection.assignmentId e) →
  state_inv (setSelection st (upsertOne hunkSelectionId (hunkSelection st) e)).
Proof.
  intros Hinv He. pose proof Hinv as (? & ? & ? & Hsub).
  apply state_inv_setSelection; [done|by apply wf_upsertOne|].
  intros k. rewrite upsertOne_lookup. case_decide; subst; [done|apply Hsub].
Qed.

Lemma state_inv_addOne st e :
  state_inv st →
  is_Some (entities (hunkAssignments st) !! HunkSelection.assignmentId e) →
  state_inv (setSelection st (addOne hunkSelectionId (hunkSelection st) e)).
Proof.
  intros Hinv He. pose proof Hinv as (? & ? & ? & Hsub).
  apply state_inv_setSelection; [done|by apply wf_addOne|].
  intros k. rewrite addOne_lookup.
  destruct (entities (hunkSelection st) !! k) eqn:Hl.
  - intros _. apply Hsub. by rewrite Hl.
  - case_decide; subst; [done|by intros [? ?]].
Qed.

Lemma state_inv_clearHunkSelection st stackId :
  state_inv st → state_inv (clearHunkSelection st stackId).
Proof. apply state_inv_removeMany. Qed.

Lemma state_inv_checkLine st stackId path hunkHeader line st' :
  state_inv st →
  checkLine compositeKey st stackId path hunkHeader line = Ok st' →
  state_inv st'.
Proof.
  intros Hinv. pose proof Hinv as (? & ? & (_ & _ & Hid) & Hsub).
  unfold checkLine, selectById.
  destruct (entities (hunkSelection st) !! _) as [sel|] eqn:Hsel.
  - intros [= <-]. apply state_inv_upsertOne; [done|]. simpl.
    apply Hsub. apply Hid in Hsel as Hk. unfold hunkSelectionId in Hk.
    rewrite Hk. by rewrite Hsel.
  - destruct (entities (hunkAssignments st) !! _) as [a|] eqn:Ha; [|done].
    intros [= <-]. apply state_inv_addOne; [done|]. simpl. by rewrite Ha.
Qed.

Lemma state_inv_storeLines st sel remaining :
  state_inv st →
  is_Some (entities (hunkAssignments st) !! HunkSelection.assignmentId sel) →
  state_inv (storeLines st sel remaining).
Proof.
  intros Hinv Ha. unfold storeLines. case_bool_decide.
  - by apply state_inv_upsertOne.
  - by apply state_inv_removeMany.
Qed.

Lemma state_inv_uncheckLine st stackId path hunkHeader line all st' :
  state_inv st →
  uncheckLine compositeKey st stackId path hunkHeader line all = Ok st' →
  state_inv st'.
Proof.
  intros Hinv. unfold uncheckLine, uncheckLineUntyped, selectById.
  destruct (entities (hunkSelection st) !! _) as [sel|] eqn:Hsel;
    [|by intros [= <-]].
  destruct (entities (hunkAssignments st) !! _) as [a|] eqn:Ha; [|done].
  destruct (HunkAssignment.hunkHeader a); [|done].
  case_bool_decide; intros [= <-];
    apply state_inv_storeLines; try done; by rewrite Ha.
Qed.

Lemma state_inv_checkHunk st stackId path hunkHeader :
  state_inv st → state_inv (checkHunk compositeKey st stackId path hunkHeader).
Proof.
  intros Hinv. unfold checkHunk, selectById.
  destruct (entities (hunkAssignments st) !! _) as [a|] eqn:Ha; [|done].
  apply state_inv_upsertOne; [done|]. simpl. by rewrite Ha.
Qed.

Lemma state_inv_uncheckHunk st stackId path hunkHeader :
  state_inv st → state_inv (uncheckHunk compositeKey st stackId path hunkHeader).
Proof. apply state_inv_removeMany. Qed.

Lemma checkAll_frame st stackId l :
  treeChanges (checkAll compositeKey st stackId l) = treeChanges st
  ∧ hunkAssignments (checkAll compositeKey st stackId l) = hunkAssignments st.
Proof.
  unfold checkAll. revert st.
  induction l as [|a l IH]; intros st; [done|]. simpl.
  destruct (IH (setSelection st
    (upsertOne hunkSelectionId (hunkSelection st)
       (wholeHunk stackId a (hunkAssignmentId compositeKey a))))) as [-> ->].
  done.
Qed.

Lemma state_inv_checkAll st stackId l :
  state_inv st →
  (∀ a, a ∈ l →
     is_Some (entities (hunkAssignments st) !! assignmentKey compositeKey a)) →
  state_inv (checkAll compositeKey st stackId l).
Proof.
  unfold checkAll. revert st.
  induction l as [|a l IH]; intros st Hinv Hl; [done|]. simpl.
  apply IH.
  - apply state_inv_upsertOne; [done|]. simpl. apply Hl. by left.
  - intros a' Ha'. simpl. apply Hl. by right.
Qed.

(** Every assignment selected by prefix sits under its own key. *)
Lemma selectByPrefix_assignment_key st prefix a :
  state_inv st →
  a ∈ selectByPrefix (hunkAssignments st) prefix →
  entities (hunkAssignments st) !! assignmentKey compositeKey a = Some a.
Proof.
  intros (_ & (_ & _ & Hid) & _) (k & _ & _ & Hk)%elem_of_selectByPrefix.
  apply Hid in Hk as Hk'. unfold hunkAssignmentId in Hk'. by rewrite Hk'.
Qed.

Lemma state_inv_checkPrefix st stackId prefix :
  state_inv st →
  state_inv (checkAll compositeKey st stackId
               (selectByPrefix (hunkAssignments st) prefix)).
Proof.
  intros Hinv. apply state_inv_checkAll; [done|].
  intros a Ha. erewrite selectByPrefix_assignment_key; eauto.
Qed.

Lemma state_inv_uncheckPrefix st prefix :
  state_inv st → state_inv (uncheckPrefix st prefix).
Proof. apply state_inv_removeMany. Qed.

(** *** Snapshot replacement *)

(** The new assignments the old selections are re-linked to, in the order
    of the old selections. *)
Definition links (assignments : list HunkAssignment.t)
    (olds : list HunkSelection.t) : list HunkAssignment.t :=
  omap (λ old,
          newMap (map (λ a, (linkKey compositeKey a, a)) assignments)
            !! oldLinkKey old) olds.

(** The loop of [updateAssignments] adds the re-linked selections one by
    one. *)
Lemma update_selection st assignments changes :
  hunkSelection (update compositeKey st assignments changes) =
    addMany hunkSelectionId getInitialState
      (map (relinked compositeKey)
           (links assignments (selectAll (hunkSelection st)))).
Proof.
  unfold update, updateAssignments, links, removeAll, getInitialState. simpl.
  generalize (selectAll (hunkSelection st)).
  generalize (mkEntityState (T:=HunkSelection.t) [] ∅).
  intros sel olds. revert sel.
  induction olds as [|old olds IH]; intros sel; [done|]. simpl.
  destruct (newMap _ !! oldLinkKey old) as [na|]; simpl; by rewrite IH.
Qed.

Lemma elem_of_links assignments olds na :
  na ∈ links assignments olds →
  na ∈ assignments
  ∧ ∃ old, old ∈ olds ∧ linkKey compositeKey na = oldLinkKey old.
Proof.
  unfold links. intros (old & Hold & Hna)%list_elem_of_omap.
  apply newMap_lookup_Some, list_elem_of_fmap in Hna as (a & [= Hk ->] & Ha).
  split; [done|]. by exists old.
Qed.


(** The first element passing a filter, when some element passes. *)
Lemma head_filter_Some {A : Type} (P : A → Prop) `{∀ x, Decision (P x)}
    (l : list A) x :
  x ∈ l → P x → ∃ y, head (filter P l) = Some y ∧ y ∈ l ∧ P y.
Proof.
  intros Hx HP.
  destruct (filter P l) as [|y l'] eqn:Hf.
  - exfalso. assert (Hin : x ∈ filter P l) by by apply list_elem_of_filter.
    rewrite Hf in Hin. by apply elem_of_nil in Hin.
  - exists y. split; [done|].
    assert (Hin : y ∈ filter P l) by (rewrite Hf; by left).
    apply list_elem_of_filter in Hin. tauto.
Qed.

Lemma head_filter_elem {A : Type} (P : A → Prop) `{∀ x, Decision (P x)}
    (l : list A) y :
  head (filter P l) = Some y → y ∈ l ∧ P y.
Proof.
  intros Hh. destruct (filter P l) as [|z l'] eqn:Hf; [done|].
  injection Hh as ->.
  assert (Hin : y ∈ filter P l) by (rewrite Hf; by left).
  apply list_elem_of_filter in Hin. tauto.
Qed.

Lemma state_inv_update st assignments changes :
  state_inv (update compositeKey st assignments changes).
Proof.
  unfold state_inv. rewrite update_selection.
  split; [apply wf_addManyAnyKey, wf_initial|].
  split; [apply wf_addMany, wf_initial|].
  split; [apply wf_addMany, wf_initial|].
  intros k. simpl. rewrite !addMany_lookup. simpl. rewrite !lookup_empty.
  intros [s Hs]. apply head_filter_elem in Hs as [Hs Hk].
  apply list_elem_of_fmap in Hs as (na & -> & [Hna _]%elem_of_links).
  unfold hunkSelectionId in Hk. simpl in Hk.
  destruct (head_filter_Some (λ e, hunkAssignmentId compositeKey e = k)
              assignments na) as (y & -> & _); eauto.
Qed.

Lemma state_inv_reduce st a st' :
  state_inv st →
  reduce compositeKey partialKey prefixKey st a = Ok st' →
  state_inv st'.
Proof.
  intros Hinv. destruct a; simpl;
    try (intros [= <-]);
    eauto using state_inv_clearHunkSelection, state_inv_update,
      state_inv_checkLine, state_inv_uncheckLine, state_inv_checkHunk,
      state_inv_uncheckHunk, state_inv_checkPrefix, state_inv_uncheckPrefix.
Qed.

Lemma reachable_dispatch st a :
  reachable compositeKey partialKey prefixKey st →
  reachable compositeKey partialKey prefixKey
    (dispatch compositeKey partialKey prefixKey st a).
Proof.
  intros Hst. unfold dispatch.
  destruct (reduce compositeKey partialKey prefixKey st a) as [st'|e] eqn:Hr;
    [by eapply reachable_step|done].
Qed.

Lemma reachable_dispatchAll st actions :
  reachable compositeKey partialKey prefixKey st →
  reachable compositeKey partialKey prefixKey
    (dispatchAll compositeKey partialKey prefixKey st actions).
Proof.
  unfold dispatchAll. revert st.
  induction actions as [|a actions IH]; intros st Hst; [done|].
  simpl. by apply IH, reachable_dispatch.
Qed.

Lemma reachable_inv st :
  reachable compositeKey partialKey prefixKey st → state_inv st.
Proof.
  induction 1 as [|st a st' _ IH Hstep];
    [apply state_inv_initial|by eapply state_inv_reduce].
Qed.

(** ** The reducers *)

(** [st'] is [st] with the selection under [key] set to [o]: the tree
    changes, the assignments and every other selection are those of
    [st]. *)
Definition selection_set_to st st' (key : string)
    (o : option HunkSelection.t) : Prop :=
  treeChanges st' = treeChanges st
  ∧ hunkAssignments st' = hunkAssignments st
  ∧ ∀ k, selectById (hunkSelection st') k =
           if decide (k = key) then o else selectById (hunkSelection st) k.

(** The filter predicate of [uncheckLine] keeps exactly the lines that
    differ from the unchecked one. *)
Lemma otherLine_ne line l : otherLine line l ↔ l ≠ line.
Proof.
  unfold otherLine. destruct l as [o n], line as [o' n']. simpl. split.
  - intros [H|H] [= ? ?]; by apply H.
  - intros H. destruct (decide (n = n')) as [->|]; [|by left].
    right. intros ->. by apply H.
Qed.

Lemma filter_otherLine line (ls : list LineId) :
  filter (otherLine line) ls = filter (λ l, l ≠ line) ls.
Proof. apply list_filter_iff. intros l. apply otherLine_ne. Qed.

Lemma storeLines_spec st sel remaining :
  state_inv st →
  selectById (hunkSelection st) (HunkSelection.assignmentId sel) = Some sel →
  selection_set_to st (storeLines st sel remaining)
    (HunkSelection.assignmentId sel)
    (if decide (remaining = []) then None
     else Some (HunkSelection.withLines sel remaining)).
Proof.
  intros Hinv Hsel. unfold storeLines, selection_set_to, selectById.
  case_bool_decide as Hlen.
  - rewrite decide_False by (intros ->; simpl in Hlen; lia).
    split; [done|]. split; [done|]. intros k. simpl.
    by rewrite upsertOne_lookup.
  - rewrite decide_True by (destruct remaining; [done|simpl in Hlen; lia]).
    split; [done|]. split; [done|]. intros k. simpl.
    by rewrite removeOne_lookup.
Qed.

(** A selection of a state satisfying the invariant sits under its own
    assignment key. *)
Lemma selection_key st k sel :
  state_inv st →
  selectById (hunkSelection st) k = Some sel →
  HunkSelection.assignmentId sel = k.
Proof. intros (_ & _ & (_ & _ & Hid) & _) Hsel. by apply Hid in Hsel. Qed.

(** [checkLine] on a key that has a selection appends the line. *)
Lemma checkLine_existing st stackId path hunkHeader line sel :
  let key := compositeKey stackId path (Some hunkHeader) in
  state_inv st →
  selectById (hunkSelection st) key = Some sel →
  ∃ st', checkLine compositeKey st stackId path hunkHeader line = Ok st'
    ∧ selection_set_to st st' key
        (Some (HunkSelection.withLines sel
                 (HunkSelection.lines sel ++ [line]))).
Proof.
  intros key Hinv Hsel. unfold checkLine. fold key. rewrite Hsel.
  eexists. split; [reflexivity|].
  pose proof (selection_key _ _ _ Hinv Hsel) as Hkey.
  split; [done|]. split; [done|]. intros k. unfold selectById. simpl.
  rewrite upsertOne_lookup. unfold hunkSelectionId. simpl. by rewrite Hkey.
Qed.

(** [uncheckLine] on a selection whose assignment has a hunk header stores
    the lines that remain of [base], the lines the branch taken starts
    from. *)
Lemma uncheckLine_stores st stackId path hunkHeader line allLinesInHunk
    sel a :
  let key := compositeKey stackId path (Some hunkHeader) in
  let base := if decide (HunkSelection.lines sel = []) then allLinesInHunk
              else HunkSelection.lines sel in
  state_inv st →
  selectById (hunkSelection st) key = Some sel →
  selectById (hunkAssignments st) (HunkSelection.assignmentId sel) = Some a →
  HunkAssignment.hunkHeader a ≠ None →
  uncheckLine compositeKey st stackId path hunkHeader line allLinesInHunk
    = Ok (storeLines st sel (filter (otherLine line) base))
  ∧ HunkSelection.assignmentId sel = key.
Proof.
  intros key base Hinv Hsel Ha Hhdr.
  pose proof (selection_key _ _ _ Hinv Hsel) as Hkey. split; [|done].
  unfold uncheckLine, uncheckLineUntyped. fold key. rewrite Hsel, Ha.
  destruct (HunkAssignment.hunkHeader a) as [h|]; [|done].
  subst base. case_bool_decide as Hlen.
  - destruct (decide (HunkSelection.lines sel = [])) as [_|Hne];
      [done|by apply nil_length_inv in Hlen].
  - destruct (decide (HunkSelection.lines sel = [])) as [Hnil|_];
      [by rewrite Hnil in Hlen|done].
Qed.

(** C2. [uncheckLine] on a selection whose assignment has a hunk header:
    a whole-hunk selection (empty line list) becomes all lines of the hunk
    except the unchecked one, an explicit selection loses the unchecked
    line; in both cases the selection is removed when no line remains.
    Nothing else in the state changes. *)
Theorem C2_uncheckLine_policy st stackId path hunkHeader line allLinesInHunk
    sel a :
  let key := compositeKey stackId path (Some hunkHeader) in
  let base := if decide (HunkSelection.lines sel = []) then allLinesInHunk
              else HunkSelection.lines sel in
  let remaining := filter (λ l, l ≠ line) base in
  state_inv st →
  selectById (hunkSelection st) key = Some sel →
  selectById (hunkAssignments st) (HunkSelection.assignmentId sel) = Some a →
  HunkAssignment.hunkHeader a ≠ None →
  ∃ st',
    uncheckLine compositeKey st stackId path hunkHeader line allLinesInHunk
      = Ok st'
    ∧ selection_set_to st st' key
        (if decide (remaining = []) then None
         else Some {| HunkSelection.stableId := HunkSelection.stableId sel;
                      HunkSelection.stackId := HunkSelection.stackId sel;
                      HunkSelection.path := HunkSelection.path sel;
                      HunkSelection.assignmentId :=
                        HunkSelection.assignmentId sel;
                      HunkSelection.lines := remaining |}).
Proof.
  intros key base remaining Hinv Hsel Ha Hhdr.
  destruct (uncheckLine_stores st stackId path hunkHeader line allLinesInHunk
              sel a Hinv Hsel Ha Hhdr) as [Hrun Hkey].
  eexists. split; [exact Hrun|].
  subst remaining base key. rewrite <- Hkey in Hsel |- *.
  rewrite <- filter_otherLine.
  exact (storeLines_spec st sel _ Hinv Hsel).
Qed.

(** C5. [checkLine] when no selection exists for the key: with a matching
    assignment it creates a selection for the key holding exactly the given
    line; without one it throws the expected-assignment error. When a
    selection exists, the line is appended to it and nothing is thrown. *)
Theorem C5_checkLine_cases st stackId path hunkHeader line :
  let key := compositeKey stackId path (Some hunkHeader) in
  state_inv st →
  match selectById (hunkSelection st) key,
        selectById (hunkAssignments st) key with
  | None, Some a =>
      ∃ st', checkLine compositeKey st stackId path hunkHeader line = Ok st'
        ∧ selection_set_to st st' key
            (Some {| HunkSelection.stableId := HunkAssignment.id a;
                     HunkSelection.stackId := stackId;
                     HunkSelection.path := HunkAssignment.path a;
                     HunkSelection.assignmentId := key;
                     HunkSelection.lines := [line] |})
  | None, None =>
      checkLine compositeKey st stackId path hunkHeader line
        = Throw (ExpectedAssignment key)
  | Some sel, _ =>
      ∃ st', checkLine compositeKey st stackId path hunkHeader line = Ok st'
        ∧ selection_set_to st st' key
            (Some (HunkSelection.withLines sel
                     (HunkSelection.lines sel ++ [line])))
  end.
Proof.
  intros key Hinv.
  destruct (selectById (hunkSelection st) key) as [sel|] eqn:Hsel.
  - fold (checkLine compositeKey st stackId path hunkHeader line).
    by apply checkLine_existing.
  - unfold checkLine. fold key. rewrite Hsel.
    destruct (selectById (hunkAssignments st) key) as [a|] eqn:Ha; [|done].
    eexists. split; [reflexivity|].
    split; [done|]. split; [done|]. intros k. unfold selectById in *. simpl.
    rewrite addOne_lookup. unfold hunkSelectionId. simpl.
    case_decide; subst.
    + by rewrite Hsel.
    + by destruct (entities (hunkSelection st) !! k).
Qed.

(** C6. [checkHunk] with no assignment under the key returns the state it
    was given: tree changes, assignments and selections are untouched. *)
Theorem C6_checkHunk_noop st stackId path hunkHeader :
  selectById (hunkAssignments st) (compositeKey stackId path hunkHeader) = None →
  checkHunk compositeKey st stackId path hunkHeader = st.
Proof. intros Ha. unfold checkHunk. by rewrite Ha. Qed.

(** C7. [uncheckLine] run for the key of a selection whose referenced
    assignment has a null hunk header (a whole-file assignment) throws the
    not-implemented error; no new state is produced. The header of the
    call is the one that builds that key: null for the selection of a
    whole-file assignment. *)
Theorem C7_uncheckLine_whole_file st stackId path
    (hunkHeader : option HunkHeader) line allLinesInHunk sel a :
  selectById (hunkSelection st) (compositeKey stackId path hunkHeader)
    = Some sel →
  selectById (hunkAssignments st) (HunkSelection.assignmentId sel) = Some a →
  HunkAssignment.hunkHeader a = None →
  uncheckLineUntyped compositeKey st stackId path hunkHeader line
    allLinesInHunk = Throw NotImplemented.
Proof.
  intros Hsel Ha Hhdr. unfold uncheckLineUntyped. by rewrite Hsel, Ha, Hhdr.
Qed.

(** C8. [checkHunk] is idempotent: when an assignment exists under the
    key, checking the hunk stores the whole-hunk selection under the key,
    and checking it a second time yields the very same state. *)
Theorem C8_checkHunk_idempotent st stackId path hunkHeader a :
  let key := compositeKey stackId path hunkHeader in
  selectById (hunkAssignments st) key = Some a →
  selectById (hunkSelection (checkHunk compositeKey st stackId path hunkHeader))
    key = Some (wholeHunk stackId a key)
  ∧ checkHunk compositeKey
      (checkHunk compositeKey st stackId path hunkHeader)
      stackId path hunkHeader
    = checkHunk compositeKey st stackId path hunkHeader.
Proof.
  intros key Ha. unfold checkHunk. fold key. rewrite Ha. simpl. rewrite Ha.
  split.
  - unfold selectById. rewrite upsertOne_lookup. by rewrite decide_True.
  - unfold setSelection. simpl. f_equal. apply upsertOne_idem.
Qed.

(** C9. In every state reachable from the initial state through the
    reducers, the [assignmentId] of every selection is the key of an
    assignment held by the same state. *)
Theorem C9_selection_has_assignment st k sel :
  reachable compositeKey partialKey prefixKey st →
  selectById (hunkSelection st) k = Some sel →
  ∃ a, selectById (hunkAssignments st) (HunkSelection.assignmentId sel) = Some a
       ∧ assignmentKey compositeKey a = HunkSelection.assignmentId sel.
Proof.
  intros Hinv%reachable_inv Hsel.
  pose proof (selection_key _ _ _ Hinv Hsel) as Hkey.
  destruct Hinv as (_ & (_ & _ & Hid) & _ & Hsub).
  destruct (Hsub k) as [a Ha]; [by exists sel|].
  exists a. rewrite Hkey. split; [done|]. by apply Hid in Ha.
Qed.

(** C10. [checkLine] appends without looking for duplicates: checking a
    line the selection already holds stores it a second time. One
    [uncheckLine] of that line afterwards leaves no occurrence of it: the
    selection keeps the other lines, or is removed when none is left. *)
Theorem C10_checkLine_duplicates st stackId path hunkHeader line
    allLinesInHunk sel a :
  let key := compositeKey stackId path (Some hunkHeader) in
  let others := filter (λ l, l ≠ line) (HunkSelection.lines sel) in
  state_inv st →
  selectById (hunkSelection st) key = Some sel →
  line ∈ HunkSelection.lines sel →
  selectById (hunkAssignments st) key = Some a →
  HunkAssignment.hunkHeader a ≠ None →
  ∃ st1 st2 sel1,
    checkLine compositeKey st stackId path hunkHeader line = Ok st1
    ∧ selectById (hunkSelection st1) key = Some sel1
    ∧ HunkSelection.lines sel1 = (HunkSelection.lines sel ++ [line])%list
    ∧ (2 ≤ length (filter (λ l, l = line) (HunkSelection.lines sel1)))%nat
    ∧ uncheckLine compositeKey st1 stackId path hunkHeader line allLinesInHunk
        = Ok st2
    ∧ selection_set_to st1 st2 key
        (if decide (others = []) then None
         else Some (HunkSelection.withLines sel others)).
Proof.
  intros key others Hinv Hsel Hin Ha Hhdr.
  destruct (checkLine_existing st stackId path hunkHeader line sel Hinv Hsel)
    as (st1 & Hst1 & Htc & Has & Hlk).
  fold key in Hlk.
  pose proof (state_inv_checkLine _ _ _ _ _ _ Hinv Hst1) as Hinv1.
  pose proof (selection_key _ _ _ Hinv Hsel) as Hkey.
  set (sel1 := HunkSelection.withLines sel (HunkSelection.lines sel ++ [line])).
  assert (Hsel1 : selectById (hunkSelection st1) key = Some sel1).
  { rewrite Hlk. by rewrite decide_True. }
  destruct (uncheckLine_stores st1 stackId path hunkHeader line allLinesInHunk
              sel1 a) as [Hst2 _]; try done.
  { simpl. rewrite Has, Hkey. exact Ha. }
  eexists st1, _, sel1. split; [done|]. split; [done|]. split; [done|].
  split; [|split; [exact Hst2|]].
  - simpl. rewrite filter_app, length_app. simpl.
    rewrite filter_cons, decide_True by done. simpl.
    assert (Hpos : line ∈ filter (λ l, l = line) (HunkSelection.lines sel))
      by by apply list_elem_of_filter.
    destruct (filter (λ l, l = line) (HunkSelection.lines sel));
      [by apply elem_of_nil in Hpos|simpl; lia].
  - pose proof (storeLines_spec st1 sel1 others Hinv1) as Hstore.
    simpl in Hstore. rewrite Hkey in Hstore. specialize (Hstore Hsel1).
    simpl.
    destruct (decide ((HunkSelection.lines sel ++ [line])%list = []))
      as [Hnil|_]; [by apply app_eq_nil in Hnil as [_ ?]|].
    rewrite filter_otherLine, filter_app, (filter_cons _ line).
    destruct (decide (line ≠ line)) as [Hne|_]; [by destruct Hne|].
    rewrite filter_nil, app_nil_r. fold others.
    by destruct (decide (others = [])).
Qed.

(** ** The check-status selectors *)

(** The assignment has a selection, whatever its lines. *)
Definition has_selection st (a : HunkAssignment.t) : Prop :=
  is_Some (selectById (hunkSelection st) (assignmentKey compositeKey a)).

(** The assignment has a selection with an empty line list. *)
Definition wholly_selected st (a : HunkAssignment.t) : Prop :=
  ∃ sel, selectById (hunkSelection st) (assignmentKey compositeKey a) = Some sel
         ∧ HunkSelection.lines sel = [].

(** The reading of the file status that takes "every assignment under the
    prefix" literally, also when there is none. *)
Definition fileStatus_as_stated st (stackId : option string) (path : string)
  : Prop :=
  let prefix := partialKey stackId (Some path) in
  let status := fileCheckStatus partialKey st stackId path in
  let all_whole :=
    ∀ a, a ∈ selectByPrefix (hunkAssignments st) prefix → wholly_selected st a in
  let none := selectByPrefix (hunkSelection st) prefix = [] in
  (status = checked ↔ all_whole)
  ∧ (status = unchecked ↔ none)
  ∧ (status = indeterminate ↔ ¬ all_whole ∧ ¬ none).

(** The same reading for the folder and stack status computed over
    [prefix]. *)
Definition prefixStatus_as_stated st (prefix : string)
    (status : CheckboxStatus) : Prop :=
  let matches := selectByPrefix (hunkAssignments st) prefix in
  let all := ∀ a, a ∈ matches → has_selection st a in
  let none := ∀ a, a ∈ matches → ¬ has_selection st a in
  (status = checked ↔ all)
  ∧ (status = unchecked ↔ none)
  ∧ (status = indeterminate ↔ ¬ all ∧ ¬ none).

Definition folderStackStatus_as_stated st (stackId : option string)
    (path : string) : Prop :=
  prefixStatus_as_stated st (prefixKey stackId path)
    (folderCheckStatus compositeKey prefixKey st stackId path)
  ∧ prefixStatus_as_stated st (partialKey stackId None)
      (stackCheckStatus compositeKey partialKey st stackId).

(** What the folder and stack status compute over [prefix]. *)
Definition prefixStatus_spec st (prefix : string) (status : CheckboxStatus)
  : Prop :=
  let matches := selectByPrefix (hunkAssignments st) prefix in
  (status = checked ↔
     matches ≠ [] ∧ ∀ a, a ∈ matches → has_selection st a)
  ∧ (status = unchecked ↔ ∀ a, a ∈ matches → ¬ has_selection st a)
  ∧ (status = indeterminate ↔
       (∃ a, a ∈ matches ∧ has_selection st a)
       ∧ (∃ a, a ∈ matches ∧ ¬ has_selection st a)).

Lemma hasKey_has_selection st a :
  hasKey (hunkSelection st) (assignmentKey compositeKey a) = true ↔
    has_selection st a.
Proof. apply hasKey_true. Qed.

Lemma forallb_elem_of {A : Type} (f : A → bool) (l : list A) :
  forallb f l = true ↔ ∀ x, x ∈ l → f x = true.
Proof.
  rewrite forallb_forall. split; intros H x Hx; apply H; by apply list_elem_of_In.
Qed.

Lemma existsb_elem_of {A : Type} (f : A → bool) (l : list A) :
  existsb f l = true ↔ ∃ x, x ∈ l ∧ f x = true.
Proof.
  rewrite existsb_exists.
  split; intros (x & Hx & Hf); exists x; (split; [by apply list_elem_of_In|done]).
Qed.

Lemma forallb_false_elem_of {A : Type} (f : A → bool) (l : list A) :
  forallb f l = false → ∃ x, x ∈ l ∧ f x = false.
Proof.
  induction l as [|x l IH]; simpl; [done|].
  destruct (f x) eqn:Hx; simpl.
  - intros (y & Hy & Hf)%IH. exists y. split; [by right|done].
  - intros _. exists x. split; [by left|done].
Qed.

Lemma prefixCheckStatus_spec st prefix :
  prefixStatus_spec st prefix (prefixCheckStatus compositeKey st prefix).
Proof.
  unfold prefixStatus_spec, prefixCheckStatus.
  set (matches := selectByPrefix (hunkAssignments st) prefix).
  set (sel := λ a, hasKey (hunkSelection st) (assignmentKey compositeKey a)).
  assert (Hsel : ∀ a, sel a = true ↔ has_selection st a)
    by (intros a; apply hasKey_has_selection).
  assert (Hnsel : ∀ a, sel a = false ↔ ¬ has_selection st a).
  { intros a. rewrite <- Hsel. by destruct (sel a). }
  case_bool_decide as Hlen.
  { apply nil_length_inv in Hlen. rewrite Hlen. split; [|split].
    - split; [done|]. by intros [? _].
    - split; [|done]. intros _ a Ha. by apply elem_of_nil in Ha.
    - split; [done|]. intros [(a & Ha & _) _]. by apply elem_of_nil in Ha. }
  assert (Hne : matches ≠ []) by (intros Hnil; by rewrite Hnil in Hlen).
  destruct (forallb sel matches) eqn:Hall.
  { rewrite forallb_elem_of in Hall. split; [|split].
    - split; [|done]. intros _. split; [done|]. intros a Ha. by apply Hsel, Hall.
    - split; [done|]. intros Hnone. destruct matches as [|a l]; [done|].
      exfalso. apply (Hnone a); [by left|]. apply Hsel, Hall. by left.
    - split; [done|]. intros [_ (a & Ha & Hna)]. exfalso.
      apply Hna, Hsel, Hall, Ha. }
  apply forallb_false_elem_of in Hall as (b & Hb & Hfb).
  destruct (existsb sel matches) eqn:Hex.
  { apply existsb_elem_of in Hex as (c & Hc & Hfc). split; [|split].
    - split; [done|]. intros [_ Hall]. apply Hall, Hsel in Hb. congruence.
    - split; [done|]. intros Hnone. exfalso. apply (Hnone c Hc). by apply Hsel.
    - split; [|done]. intros _. split.
      + exists c. split; [done|]. by apply Hsel.
      + exists b. split; [done|]. by apply Hnsel. }
  assert (Hnone : ∀ a, a ∈ matches → sel a = false).
  { intros a Ha. destruct (sel a) eqn:Hsa; [|done].
    assert (existsb sel matches = true) by (apply existsb_elem_of; eauto).
    congruence. }
  split; [|split].
  - split; [done|]. intros [_ Hall]. apply Hall, Hsel in Hb. congruence.
  - split; [|done]. intros _ a Ha. by apply Hnsel, Hnone.
  - split; [done|]. intros [(c & Hc & Hfc) _]. apply Hsel in Hfc.
    rewrite Hnone in Hfc by done. done.
Qed.

(** C4 (amended). [folderCheckStatus] and [stackCheckStatus] are [checked]
    iff at least one assignment matches the prefix and every matching
    assignment has some selection, whatever its line list; [unchecked] iff
    no matching assignment has a selection; [indeterminate] iff some
    matching assignment has a selection and some has none. *)
Theorem C4_folder_stack_status st stackId path :
  prefixStatus_spec st (prefixKey stackId path)
    (folderCheckStatus compositeKey prefixKey st stackId path)
  ∧ prefixStatus_spec st (partialKey stackId None)
      (stackCheckStatus compositeKey partialKey st stackId).
Proof. split; apply prefixCheckStatus_spec. Qed.

(** What [fileCheckStatus] computes. *)
Definition fileStatus_spec st (stackId : option string) (path : string)
  : Prop :=
  let prefix := partialKey stackId (Some path) in
  let status := fileCheckStatus partialKey st stackId path in
  let all_whole :=
    ∀ a, a ∈ selectByPrefix (hunkAssignments st) prefix → wholly_selected st a in
  let none := selectByPrefix (hunkSelection st) prefix = [] in
  (status = checked ↔
     selectByPrefix (hunkAssignments st) prefix ≠ [] ∧ all_whole)
  ∧ (status = unchecked ↔ none)
  ∧ (status = indeterminate ↔ ¬ all_whole ∧ ¬ none).

(** Under the invariant, the selections under a prefix are as many as the
    assignments under it, and all whole, exactly when every assignment
    under the prefix is wholly selected. *)
Lemma file_counts st prefix :
  state_inv st →
  (length (selectByPrefix (hunkSelection st) prefix)
     = length (selectByPrefix (hunkAssignments st) prefix)
   ∧ ∀ sel, sel ∈ selectByPrefix (hunkSelection st) prefix →
            HunkSelection.lines sel = [])
  ↔ ∀ a, a ∈ selectByPrefix (hunkAssignments st) prefix → wholly_selected st a.
Proof.
  intros (_ & (HndA & HdomA & HidA) & (HndS & HdomS & HidS) & Hsub).
  set (P := λ id : string, startsWith id prefix = true).
  set (S := filter P (ids (hunkSelection st))).
  set (A := filter P (ids (hunkAssignments st))).
  assert (HlenS : length (selectByPrefix (hunkSelection st) prefix) = length S).
  { apply length_selectByPrefix. intros k. apply HdomS. }
  assert (HlenA : length (selectByPrefix (hunkAssignments st) prefix) = length A).
  { apply length_selectByPrefix. intros k. apply HdomA. }
  assert (HSA : S ⊆+ A).
  { apply NoDup_submseteq; [by apply NoDup_filter|].
    intros k [Hk Hin]%list_elem_of_filter. apply list_elem_of_filter.
    split; [done|]. by apply HdomA, Hsub, HdomS. }
  rewrite HlenS, HlenA. split.
  - intros [Hlen Hwhole] a (k & Hk & Hpre & Ha)%elem_of_selectByPrefix.
    assert (HkS : k ∈ S).
    { rewrite (submseteq_length_Permutation S A HSA) by lia.
      by apply list_elem_of_filter. }
    apply list_elem_of_filter in HkS as [_ HkS].
    apply HdomS in HkS as [sel Hsel].
    exists sel. apply HidA in Ha as Hkey. unfold hunkAssignmentId in Hkey.
    rewrite Hkey. split; [done|]. apply Hwhole.
    apply elem_of_selectByPrefix. exists k. split; [|done].
    apply HdomS. by exists sel.
  - intros Hall.
    assert (HAS : A ⊆+ S).
    { apply NoDup_submseteq; [by apply NoDup_filter|].
      intros k [Hpre Hk]%list_elem_of_filter. apply list_elem_of_filter.
      split; [done|]. apply HdomA in Hk as Hk'. destruct Hk' as [a Ha].
      destruct (Hall a) as (sel & Hsel & _).
      { apply elem_of_selectByPrefix. by exists k. }
      apply HidA in Ha as Hkey. unfold hunkAssignmentId in Hkey.
      rewrite Hkey in Hsel. apply HdomS. by exists sel. }
    split.
    { apply Nat.le_antisymm; by apply submseteq_length. }
    intros sel (k & Hk & Hpre & Hsel)%elem_of_selectByPrefix.
    destruct (Hsub k) as [a Ha]; [by exists sel|].
    destruct (Hall a) as (sel' & Hsel' & Hlines).
    { apply elem_of_selectByPrefix. exists k. split; [|done].
      apply HdomA. by exists a. }
    apply HidA in Ha as Hkey. unfold hunkAssignmentId in Hkey.
    rewrite Hkey in Hsel'. unfold selectById in Hsel'. congruence.
Qed.

(** Under the invariant, a prefix with a selection under it has an
    assignment under it. *)
Lemma selection_prefix_nonempty st prefix :
  state_inv st →
  selectByPrefix (hunkSelection st) prefix ≠ [] →
  selectByPrefix (hunkAssignments st) prefix ≠ [].
Proof.
  intros (_ & (_ & HdomA & _) & _ & Hsub) Hne Hnil.
  destruct (selectByPrefix (hunkSelection st) prefix) as [|sel l] eqn:Hs; [done|].
  assert (Hin : sel ∈ selectByPrefix (hunkSelection st) prefix)
    by (rewrite Hs; by left).
  apply elem_of_selectByPrefix in Hin as (k & Hk & Hpre & Hsel).
  destruct (Hsub k) as [a Ha]; [by exists sel|].
  assert (Hina : a ∈ selectByPrefix (hunkAssignments st) prefix).
  { apply elem_of_selectByPrefix. exists k. split; [|done].
    apply HdomA. by exists a. }
  rewrite Hnil in Hina. by apply elem_of_nil in Hina.
Qed.

(** C3 (amended). In a state satisfying the store invariant,
    [fileCheckStatus] is one of the three statuses; it is [checked] iff at
    least one assignment lies under the (stackId, path) prefix and every
    assignment under it has a selection with an empty line list,
    [unchecked] iff no selection lies under the prefix, and
    [indeterminate] otherwise. *)
Theorem C3_file_status st stackId path :
  state_inv st → fileStatus_spec st stackId path.
Proof.
  intros Hinv. unfold fileStatus_spec, fileCheckStatus.
  set (prefix := partialKey stackId (Some path)).
  pose proof (file_counts st prefix Hinv) as Hcounts.
  pose proof (selection_prefix_nonempty st prefix Hinv) as Hne.
  set (sels := selectByPrefix (hunkSelection st) prefix) in *.
  set (asgs := selectByPrefix (hunkAssignments st) prefix) in *.
  case_bool_decide as Hlen.
  { apply nil_length_inv in Hlen. split; [|split].
    - split; [done|]. intros [Hasgs Hall]. apply Hcounts in Hall as [Heq _].
      rewrite Hlen in Heq. destruct asgs; done.
    - done.
    - split; [done|]. by intros [_ ?]. }
  assert (Hsels : sels ≠ []) by (intros Hnil; by rewrite Hnil in Hlen).
  destruct (bool_decide (length sels = length asgs)
            && forallb (λ x, bool_decide (length (HunkSelection.lines x) = 0%nat))
                 sels) eqn:Hchk.
  - apply andb_true_iff in Hchk as [Heq%bool_decide_eq_true Hall].
    rewrite forallb_elem_of in Hall.
    assert (Hwhole : ∀ a, a ∈ asgs → wholly_selected st a).
    { apply Hcounts. split; [done|]. intros sel Hsel.
      apply Hall, bool_decide_eq_true in Hsel. by apply nil_length_inv. }
    split; [|split].
    + split; [|done]. intros _. split; [by apply Hne|done].
    + done.
    + split; [done|]. by intros [? _].
  - assert (Hnot : ¬ ∀ a, a ∈ asgs → wholly_selected st a).
    { intros [Heq Hall]%Hcounts.
      apply andb_false_iff in Hchk as [Hc|Hc].
      - apply bool_decide_eq_false in Hc. done.
      - apply forallb_false_elem_of in Hc as (sel & Hsel & Hc).
        apply bool_decide_eq_false in Hc. apply Hc. by rewrite Hall. }
    split; [|split].
    + split; [done|]. by intros [_ ?].
    + done.
    + done.
Qed.

(** ** Snapshot replacement and the selections *)




End SliceFacts.

(** * The scenario *)

Section ScenarioFacts.
Import SpecKeys Scenario.

Lemma run_reachable actions :
  reachable compositeKey partialKey prefixKey (run actions).
Proof. apply reachable_dispatchAll. constructor. Qed.

Lemma run_inv actions : state_inv compositeKey (run actions).
Proof. eapply reachable_inv, run_reachable. Qed.

(** The scenario of the spec: one hunk of two checked is [indeterminate],
    both are [checked], and unchecking the first is [indeterminate]
    again. *)
Example file_status_scenario :
  fileCheckStatus partialKey oneHunk (Some "a") "f.txt" = indeterminate
  ∧ fileCheckStatus partialKey
      (run [load; CheckHunk (Some "a") "f.txt" (Some H1);
            CheckHunk (Some "a") "f.txt" (Some H2)])
      (Some "a") "f.txt" = checked
  ∧ fileCheckStatus partialKey
      (run [load; CheckHunk (Some "a") "f.txt" (Some H1);
            CheckHunk (Some "a") "f.txt" (Some H2);
            UncheckHunk (Some "a") "f.txt" (Some H1)])
      (Some "a") "f.txt" = indeterminate.
Proof. by vm_compute. Qed.

(** The line round trip of the spec: with lines [L1; L2; L3], checking the
    hunk and unchecking [L2] leaves [L1; L3]; unchecking [L1] and [L3]
    removes the selection. *)
Example line_round_trip :
  hunkCheckStatus compositeKey
    (run [load; CheckHunk (Some "a") "f.txt" (Some H1);
          UncheckLine (Some "a") "f.txt" H1 L2 [L1; L2; L3]])
    (Some "a") "f.txt" H1 = (true, [L1; L3])
  ∧ hunkCheckStatus compositeKey
      (run [load; CheckHunk (Some "a") "f.txt" (Some H1);
            UncheckLine (Some "a") "f.txt" H1 L2 [L1; L2; L3];
            UncheckLine (Some "a") "f.txt" H1 L1 [L1; L2; L3];
            UncheckLine (Some "a") "f.txt" H1 L3 [L1; L2; L3]])
      (Some "a") "f.txt" H1 = (false, []).
Proof. by vm_compute. Qed.

(** Witness of C2: unchecking [L2] of the wholly selected first hunk
    leaves the lines [L1; L3]. *)
Lemma C2_witness :
  state_inv compositeKey oneHunk
  ∧ ∃ st',
      uncheckLine compositeKey oneHunk (Some "a") "f.txt" H1 L2 [L1; L2; L3]
        = Ok st'
      ∧ selection_set_to oneHunk st' (assignmentKey compositeKey hunk1)
          (Some (HunkSelection.mk (Some "S1") (Some "a") "f.txt"
                   (assignmentKey compositeKey hunk1) [L1; L3])).
Proof.
  split; [apply run_inv|].
  apply (C2_uncheckLine_policy compositeKey oneHunk (Some "a") "f.txt" H1 L2
           [L1; L2; L3]
           (HunkSelection.mk (Some "S1") (Some "a") "f.txt"
              (assignmentKey compositeKey hunk1) [])
           hunk1);
    [apply run_inv|by vm_compute|by vm_compute|done].
Defined.

(** Witness of C5, one state per case: a first line of an unselected hunk,
    a hunk without assignment, and a second line of a selected hunk. *)
Lemma C5_witness :
  (∃ st',
     checkLine compositeKey snapshot (Some "a") "f.txt" H1 L1 = Ok st'
     ∧ selection_set_to snapshot st' (assignmentKey compositeKey hunk1)
         (Some (HunkSelection.mk (Some "S1") (Some "a") "f.txt"
                  (assignmentKey compositeKey hunk1) [L1])))
  ∧ checkLine compositeKey snapshot (Some "b") "f.txt" H1 L1
      = Throw (ExpectedAssignment (compositeKey (Some "b") "f.txt" (Some H1)))
  ∧ (∃ st',
       checkLine compositeKey oneLine (Some "a") "f.txt" H1 L2 = Ok st'
       ∧ selection_set_to oneLine st' (assignmentKey compositeKey hunk1)
           (Some (HunkSelection.mk (Some "S1") (Some "a") "f.txt"
                    (assignmentKey compositeKey hunk1) [L1; L2]))).
Proof.
  split; [|split].
  - exact (C5_checkLine_cases compositeKey snapshot (Some "a") "f.txt" H1 L1
             (run_inv _)).
  - exact (C5_checkLine_cases compositeKey snapshot (Some "b") "f.txt" H1 L1
             (run_inv _)).
  - exact (C5_checkLine_cases compositeKey oneLine (Some "a") "f.txt" H1 L2
             (run_inv _)).
Defined.

(** Witness of C6: checking a hunk of a stack that has no assignment. *)
Lemma C6_witness :
  checkHunk compositeKey oneHunk (Some "b") "f.txt" (Some H1) = oneHunk.
Proof. apply C6_checkHunk_noop. by vm_compute. Defined.

(** Witness of C7: the image is selected as a whole file; unchecking a
    line under the key of that selection throws. *)
Lemma C7_witness :
  reachable compositeKey partialKey prefixKey wholeImage
  ∧ uncheckLineUntyped compositeKey wholeImage (Some "a") "img.png" None L1
      [L1; L2] = Throw NotImplemented.
Proof.
  split; [apply run_reachable|].
  apply (C7_uncheckLine_whole_file compositeKey wholeImage (Some "a")
           "img.png" None L1 [L1; L2]
           (wholeHunk (Some "a") image (assignmentKey compositeKey image))
           image);
    by vm_compute.
Defined.

(** Witness of C8: checking the first hunk of the snapshot twice. *)
Lemma C8_witness :
  selectById
    (hunkSelection (checkHunk compositeKey snapshot (Some "a") "f.txt" (Some H1)))
    (assignmentKey compositeKey hunk1)
    = Some (wholeHunk (Some "a") hunk1 (assignmentKey compositeKey hunk1))
  ∧ checkHunk compositeKey
      (checkHunk compositeKey snapshot (Some "a") "f.txt" (Some H1))
      (Some "a") "f.txt" (Some H1)
    = checkHunk compositeKey snapshot (Some "a") "f.txt" (Some H1).
Proof.
  apply (C8_checkHunk_idempotent compositeKey snapshot (Some "a") "f.txt"
           (Some H1) hunk1).
  by vm_compute.
Defined.

(** Witness of C9: the selection of the first hunk refers to its
    assignment. *)
Lemma C9_witness :
  reachable compositeKey partialKey prefixKey oneHunk
  ∧ ∃ a,
      selectById (hunkAssignments oneHunk) (assignmentKey compositeKey hunk1)
        = Some a
      ∧ assignmentKey compositeKey a = assignmentKey compositeKey hunk1.
Proof.
  split; [apply run_reachable|].
  apply (C9_selection_has_assignment compositeKey partialKey prefixKey oneHunk
           (assignmentKey compositeKey hunk1)
           (wholeHunk (Some "a") hunk1 (assignmentKey compositeKey hunk1)));
    [apply run_reachable|by vm_compute].
Defined.

(** Witness of C10: [L1] is checked a second time, then unchecked once. *)
Lemma C10_witness :
  ∃ st1 st2 sel1,
    checkLine compositeKey oneLine (Some "a") "f.txt" H1 L1 = Ok st1
    ∧ selectById (hunkSelection st1) (assignmentKey compositeKey hunk1)
        = Some sel1
    ∧ HunkSelection.lines sel1 = [L1; L1]
    ∧ (2 ≤ length (filter (λ l, l = L1) (HunkSelection.lines sel1)))%nat
    ∧ uncheckLine compositeKey st1 (Some "a") "f.txt" H1 L1 [L1; L2; L3]
        = Ok st2
    ∧ selection_set_to st1 st2 (assignmentKey compositeKey hunk1) None.
Proof.
  apply (C10_checkLine_duplicates compositeKey oneLine (Some "a") "f.txt" H1 L1
           [L1; L2; L3]
           (HunkSelection.mk (Some "S1") (Some "a") "f.txt"
              (assignmentKey compositeKey hunk1) [L1])
           hunk1);
    [apply run_inv|by vm_compute|by left|by vm_compute|done].
Defined.

(** Witness of C3: the file status of [f.txt] with one hunk of two
    checked. *)
Lemma C3_witness :
  state_inv compositeKey oneHunk
  ∧ fileStatus_spec compositeKey partialKey oneHunk (Some "a") "f.txt".
Proof.
  split; [apply run_inv|].
  apply (C3_file_status compositeKey partialKey oneHunk (Some "a") "f.txt").
  apply run_inv.
Defined.


(** Counterexample to C3 as stated: stack [a] has no assignment of
    [README.md], so every assignment under that prefix is wholly selected,
    and the status is [unchecked], not [checked]. *)
Lemma C3_counterexample :
  ¬ fileStatus_as_stated compositeKey partialKey oneHunk (Some "a") "README.md".
Proof.
  intros [[_ Hchecked] _].
  assert (Hnone : selectByPrefix (hunkAssignments oneHunk)
                    (partialKey (Some "a") (Some "README.md")) = [])
    by by vm_compute.
  assert (Hst : fileCheckStatus partialKey oneHunk (Some "a") "README.md"
                = unchecked) by by vm_compute.
  rewrite Hst in Hchecked. discriminate Hchecked.
  intros a Ha. rewrite Hnone in Ha. by apply elem_of_nil in Ha.
Qed.

(** Counterexample to C4 as stated: stack [a] has no assignment under the
    folder [docs], so every matching assignment has a selection, and the
    folder status is [unchecked], not [checked]. *)
Lemma C4_counterexample :
  ¬ folderStackStatus_as_stated compositeKey partialKey prefixKey oneHunk
      (Some "a") "docs".
Proof.
  intros [[[_ Hchecked] _] _].
  assert (Hnone : selectByPrefix (hunkAssignments oneHunk)
                    (prefixKey (Some "a") "docs") = [])
    by by vm_compute.
  assert (Hst : folderCheckStatus compositeKey prefixKey oneHunk (Some "a")
                  "docs" = unchecked) by by vm_compute.
  rewrite Hst in Hchecked. discriminate Hchecked.
  intros a Ha. rewrite Hnone in Ha. by apply elem_of_nil in Ha.
Qed.

End ScenarioFacts.

(** * The remaining selectors *)

Section TreeChangeSelectors.
Variable prefixKey : option string → string → string.

(** [selectByStackId]: the tree changes whose path is the path of an
    assignment of the stack. [Object.values(entities)] is taken in the
    order of the map; the paths go into a [Set], so the order has no
    effect. A null stack id selects the unassigned changes. *)
Definition selectByStackId (st : UncommittedState) (stackId : option string)
  : list TreeChange.t :=
  let paths : gset string :=
    list_to_set
      (map HunkAssignment.path
         (filter (λ a, HunkAssignment.stackId a = stackId)
                 (map_to_list (entities (hunkAssignments st))).*2)) in
  filter (λ c, TreeChange.path c ∈ paths) (selectAll (treeChanges st)).

(** [selectedByStackId]: the changes of the stack for which some selection
    id starts with [prefixKey(stackId, change.path)]. *)
Definition selectedByStackId (st : UncommittedState) (stackId : option string)
  : list TreeChange.t :=
  filter (λ change,
            Exists (λ id, startsWith id
                            (prefixKey stackId (TreeChange.path change)) = true)
                   (ids (hunkSelection st)))
         (selectByStackId st stackId).

End TreeChangeSelectors.

(** * Further properties of the adapter *)

Section MoreAdapterFacts.
Context {T : Type} (selectId : T → string).
Implicit Types (st : EntityState T) (e : T) (k key : string).

Lemma filter_none {A : Type} (P : A → Prop) `{∀ x, Decision (P x)}
    (l : list A) :
  (∀ x, x ∈ l → ¬ P x) → filter P l = [].
Proof.
  intros Hall. destruct (filter P l) as [|y l'] eqn:Hf; [done|].
  assert (Hin : y ∈ filter P l) by (rewrite Hf; by left).
  apply list_elem_of_filter in Hin as [HP Hy]. by destruct (Hall y Hy).
Qed.

Lemma filter_all {A : Type} (P : A → Prop) `{∀ x, Decision (P x)}
    (l : list A) :
  (∀ x, x ∈ l → P x) → filter P l = l.
Proof.
  induction l as [|x l IH]; intros Hall; [done|].
  rewrite filter_cons, decide_True by (apply Hall; by left).
  f_equal. apply IH. intros y Hy. apply Hall. by right.
Qed.

(** Removing the entity just added gives back the state. *)
Lemma removeOne_addOne st e :
  wf_entities selectId st →
  entities st !! selectId e = None →
  removeOne (addOne selectId st e) (selectId e) = st.
Proof.
  intros (Hnd & Hdom & _) Hnone. unfold addOne.
  rewrite (proj2 (hasKey_false st (selectId e)) Hnone).
  unfold removeOne, removeMany. simpl.
  rewrite bool_decide_eq_true_2 by (rewrite lookup_insert_eq; eauto).
  simpl. rewrite delete_insert_eq, delete_id by done.
  destruct st as [l m]. simpl in *. f_equal.
  rewrite filter_app, (filter_all _ l) by (intros x Hx; by apply Hdom).
  rewrite (filter_none _ [selectId e]); [by rewrite app_nil_r|].
  intros x ->%list_elem_of_singleton [? ?]. congruence.
Qed.

(** Removing a key that is not stored changes nothing. *)
Lemma removeOne_absent st key :
  entities st !! key = None → removeOne st key = st.
Proof.
  intros Hnone. unfold removeOne, removeMany. simpl.
  rewrite bool_decide_eq_false_2; [done|]. rewrite Hnone. by intros [? ?].
Qed.

(** Upserting the entity that is stored changes nothing. *)
Lemma upsertOne_stored st e :
  entities st !! selectId e = Some e → upsertOne selectId st e = st.
Proof.
  intros Hsome. unfold upsertOne.
  rewrite (proj2 (hasKey_true st (selectId e))) by eauto.
  destruct st as [l m]. simpl in *. f_equal. by apply insert_id.
Qed.

Lemma upsertOne_absent st e :
  entities st !! selectId e = None →
  upsertOne selectId st e = addOne selectId st e.
Proof.
  intros Hnone. unfold upsertOne.
  by rewrite (proj2 (hasKey_false st (selectId e)) Hnone).
Qed.

Lemma addOne_ids_length st e :
  (length (ids (addOne selectId st e)) ≤ S (length (ids st)))%nat.
Proof.
  unfold addOne. destruct (hasKey st (selectId e)); simpl; [lia|].
  rewrite length_app. simpl. lia.
Qed.

Lemma addMany_ids_length st es :
  (length (ids (addMany selectId st es)) ≤ length (ids st) + length es)%nat.
Proof.
  unfold addMany. revert st.
  induction es as [|e es IH]; intros st; simpl; [lia|].
  specialize (IH (addOne selectId st e)).
  pose proof (addOne_ids_length st e). lia.
Qed.

(** Removing a list of keys that holds exactly the ids satisfying [P]
    empties the entities under those ids and keeps the others. *)
Lemma removeMany_where st keys (P : string → Prop)
    `{∀ x, Decision (P x)} k :
  wf_entities selectId st →
  (∀ k, k ∈ keys ↔ k ∈ ids st ∧ P k) →
  entities (removeMany st keys) !! k =
    if decide (P k) then None else entities st !! k.
Proof.
  intros (_ & Hdom & _) Hkeys. rewrite removeMany_lookup.
  destruct (decide (k ∈ keys)) as [Hin|Hin], (decide (P k)) as [HP|HP];
    try done.
  - apply Hkeys in Hin as [_ ?]. done.
  - destruct (entities st !! k) eqn:Hl; [|done].
    destruct Hin. apply Hkeys. split; [|done]. apply Hdom. eauto.
Qed.
End MoreAdapterFacts.

(** * Checking and unchecking by prefix *)

Section PrefixFacts.
Variable compositeKey : option string → string → option HunkHeader → string.
Variable partialKey : option string → option string → string.
Variable prefixKey : option string → string → string.

Implicit Types (st : UncommittedState) (a : HunkAssignment.t).

(** [st'] is [st] with a whole-hunk selection, made for stack [stackId],
    under every assignment key that starts with [prefix]; the tree
    changes, the assignments and the other selections are those of
    [st]. *)
Definition selects_under st st' (stackId : option string) (prefix : string)
  : Prop :=
  treeChanges st' = treeChanges st
  ∧ hunkAssignments st' = hunkAssignments st
  ∧ ∀ k, selectById (hunkSelection st') k =
           match selectById (hunkAssignments st) k with
           | Some a =>
               if startsWith k prefix then Some (wholeHunk stackId a k)
               else selectById (hunkSelection st) k
           | None => selectById (hunkSelection st) k
           end.

(** [st'] is [st] without the selections whose key starts with [prefix]. *)
Definition clears_under st st' (prefix : string) : Prop :=
  treeChanges st' = treeChanges st
  ∧ hunkAssignments st' = hunkAssignments st
  ∧ ∀ k, selectById (hunkSelection st') k =
           if startsWith k prefix then None
           else selectById (hunkSelection st) k.

(** Every key matched by [inner] is matched by [outer]. *)
Definition prefix_within (inner outer : string) : Prop :=
  ∀ k, startsWith k inner = true → startsWith k outer = true.

Lemma checkAll_lookup_notin st stackId l k :
  (∀ a, a ∈ l → assignmentKey compositeKey a ≠ k) →
  selectById (hunkSelection (checkAll compositeKey st stackId l)) k
    = selectById (hunkSelection st) k.
Proof.
  unfold checkAll. revert st.
  induction l as [|x l IH]; intros st Hl; [done|]. simpl.
  rewrite IH by (intros a Ha; apply Hl; by right).
  unfold selectById. simpl. rewrite upsertOne_lookup.
  rewrite decide_False; [done|]. intros ->. by apply (Hl x); [left|].
Qed.

Lemma checkAll_lookup_in st stackId l a k :
  a ∈ l → assignmentKey compositeKey a = k →
  (∀ a', a' ∈ l → assignmentKey compositeKey a' = k → a' = a) →
  selectById (hunkSelection (checkAll compositeKey st stackId l)) k
    = Some (wholeHunk stackId a k).
Proof.
  revert st.
  induction l as [|x l IH]; intros st Ha Hk Huniq;
    [by apply elem_of_nil in Ha|].
  change (checkAll compositeKey st stackId (x :: l))
    with (checkAll compositeKey
            (setSelection st
               (upsertOne hunkSelectionId (hunkSelection st)
                  (wholeHunk stackId x (hunkAssignmentId compositeKey x))))
            stackId l).
  destruct (decide (Exists (λ a', assignmentKey compositeKey a' = k) l))
    as [Hex|Hex].
  - apply Exists_exists in Hex as (a' & Ha' & Hk').
    assert (a' = a) as -> by (apply Huniq; [by right|done]).
    apply IH; [done|done|]. intros a'' Ha''. apply Huniq. by right.
  - rewrite checkAll_lookup_notin.
    + assert (x = a) as ->.
      { apply elem_of_cons in Ha as [->|Ha]; [done|].
        destruct Hex. apply Exists_exists. eauto. }
      unfold selectById. simpl. rewrite upsertOne_lookup.
      unfold hunkSelectionId, hunkAssignmentId. simpl.
      rewrite Hk. by rewrite decide_True.
    + intros a' Ha' Hk'. apply Hex, Exists_exists. eauto.
Qed.

Lemma checkPrefix_selects st stackId prefix :
  state_inv compositeKey st →
  selects_under st
    (checkAll compositeKey st stackId
       (selectByPrefix (hunkAssignments st) prefix))
    stackId prefix.
Proof.
  intros Hinv. pose proof Hinv as (_ & (_ & Hdom & Hid) & _).
  destruct (checkAll_frame compositeKey st stackId
              (selectByPrefix (hunkAssignments st) prefix)) as [Htc Has].
  split; [done|]. split; [done|]. intros k.
  assert (Hstored : ∀ a', a' ∈ selectByPrefix (hunkAssignments st) prefix →
            entities (hunkAssignments st) !! assignmentKey compositeKey a'
              = Some a'
            ∧ startsWith (assignmentKey compositeKey a') prefix = true).
  { intros a' (k' & _ & Hpre & Hk')%elem_of_selectByPrefix.
    apply Hid in Hk' as Hkey. unfold hunkAssignmentId in Hkey.
    by rewrite Hkey. }
  unfold selectById at 2.
  destruct (entities (hunkAssignments st) !! k) as [a|] eqn:Ha.
  - destruct (startsWith k prefix) eqn:Hpre.
    + apply Hid in Ha as Hkey. unfold hunkAssignmentId in Hkey.
      apply checkAll_lookup_in; [|done|].
      * apply elem_of_selectByPrefix. exists k. split; [|done].
        apply Hdom. eauto.
      * intros a' [Ha' _]%Hstored Hk'. rewrite Hk' in Ha'. congruence.
    + apply checkAll_lookup_notin. intros a' [_ Hp]%Hstored Hk'.
      rewrite Hk' in Hp. congruence.
  - apply checkAll_lookup_notin. intros a' [Ha' _]%Hstored Hk'.
    rewrite Hk' in Ha'. congruence.
Qed.

Lemma uncheckPrefix_clears st prefix :
  state_inv compositeKey st → clears_under st (uncheckPrefix st prefix) prefix.
Proof.
  intros (_ & _ & Hwf & _). pose proof Hwf as (_ & Hdom & Hid).
  split; [done|]. split; [done|]. intros k. unfold selectById. simpl.
  rewrite (removeMany_where hunkSelectionId _ _
             (λ k, startsWith k prefix = true)); [|done|].
  - case_decide as Hp; [by rewrite Hp|].
    by destruct (startsWith k prefix).
  - intros k'. rewrite list_elem_of_fmap. split.
    + intros (sel & -> & (k'' & Hin & Hpre & Hsel)%elem_of_selectByPrefix).
      apply Hid in Hsel as Hkey. unfold hunkSelectionId in Hkey.
      by rewrite Hkey.
    + intros [Hin Hpre]. apply Hdom in Hin as Hsome. destruct Hsome as [sel Hsel].
      exists sel. apply Hid in Hsel as Hkey. split; [done|].
      apply elem_of_selectByPrefix. by exists k'.
Qed.

Lemma clears_no_selection st st' outer inner :
  clears_under st st' outer → prefix_within inner outer →
  selectByPrefix (hunkSelection st') inner = [].
Proof.
  intros (_ & _ & Hlk) Hin.
  destruct (selectByPrefix (hunkSelection st') inner) as [|sel l] eqn:Hs;
    [done|].
  assert (Hsel : sel ∈ selectByPrefix (hunkSelection st') inner)
    by (rewrite Hs; by left).
  apply elem_of_selectByPrefix in Hsel as (k & _ & Hpre & Hsel).
  specialize (Hlk k). unfold selectById in Hlk.
  rewrite (Hin k Hpre) in Hlk. congruence.
Qed.

(** The file status when every assignment under the prefix is wholly
    selected. *)
Lemma fileCheckStatus_whole st stackId path :
  state_inv compositeKey st →
  (∀ a, a ∈ selectByPrefix (hunkAssignments st)
              (partialKey stackId (Some path)) →
        wholly_selected compositeKey st a) →
  fileCheckStatus partialKey st stackId path =
    if decide (selectByPrefix (hunkAssignments st)
                 (partialKey stackId (Some path)) = [])
    then unchecked else checked.
Proof.
  intros Hinv Hall.
  apply (file_counts compositeKey st _ Hinv) in Hall as [Hlen Hlines].
  unfold fileCheckStatus. rewrite Hlen.
  set (asgs := selectByPrefix (hunkAssignments st) _) in *.
  case_bool_decide as Hz.
  - apply nil_length_inv in Hz. by rewrite decide_True.
  - rewrite decide_False by (intros Hnil; by rewrite Hnil in Hz).
    rewrite bool_decide_eq_true_2 by done. simpl.
    rewrite (proj2 (forallb_elem_of _ _)); [done|].
    intros sel Hsel. apply bool_decide_eq_true. by rewrite (Hlines sel Hsel).
Qed.

(** The folder or stack status when every matching assignment has a
    selection. *)
Lemma prefixCheckStatus_all st prefix :
  (∀ a, a ∈ selectByPrefix (hunkAssignments st) prefix →
        has_selection compositeKey st a) →
  prefixCheckStatus compositeKey st prefix =
    if decide (selectByPrefix (hunkAssignments st) prefix = [])
    then unchecked else checked.
Proof.
  intros Hall.
  destruct (prefixCheckStatus_spec compositeKey st prefix)
    as (Hchk & Hun & _).
  case_decide as Hnil.
  - apply Hun. intros a Ha. rewrite Hnil in Ha. by apply elem_of_nil in Ha.
  - by apply Hchk.
Qed.

(** The folder or stack status when no matching assignment has a
    selection. *)
Lemma prefixCheckStatus_none st prefix :
  (∀ a, a ∈ selectByPrefix (hunkAssignments st) prefix →
        ¬ has_selection compositeKey st a) →
  prefixCheckStatus compositeKey st prefix = unchecked.
Proof.
  intros Hnone.
  destruct (prefixCheckStatus_spec compositeKey st prefix) as (_ & Hun & _).
  by apply Hun.
Qed.

Lemma selects_whole st st' stackId outer inner a :
  state_inv compositeKey st →
  selects_under st st' stackId outer → prefix_within inner outer →
  a ∈ selectByPrefix (hunkAssignments st') inner →
  wholly_selected compositeKey st' a.
Proof.
  intros (_ & (_ & _ & Hid) & _) (_ & Has & Hlk) Hin.
  rewrite Has. intros (k & _ & Hpre & Ha)%elem_of_selectByPrefix.
  apply Hid in Ha as Hkey. unfold hunkAssignmentId in Hkey.
  unfold wholly_selected. rewrite Hkey, Hlk. unfold selectById at 1.
  rewrite Ha, (Hin k Hpre). eauto.
Qed.

Lemma clears_unselected st st' outer inner a :
  state_inv compositeKey st →
  clears_under st st' outer → prefix_within inner outer →
  a ∈ selectByPrefix (hunkAssignments st') inner →
  ¬ has_selection compositeKey st' a.
Proof.
  intros (_ & (_ & _ & Hid) & _) (_ & Has & Hlk) Hin.
  rewrite Has. intros (k & _ & Hpre & Ha)%elem_of_selectByPrefix.
  apply Hid in Ha as Hkey. unfold hunkAssignmentId in Hkey.
  unfold has_selection. rewrite Hkey, Hlk, (Hin k Hpre). by intros [? ?].
Qed.

Lemma prefix_within_refl prefix : prefix_within prefix prefix.
Proof. by intros k. Qed.


(** X2. After [checkFile], the status of that file is [checked] when the
    file has an assignment in the stack, and [unchecked] when it has
    none. *)
Theorem X2_checkFile_status st stackId path :
  state_inv compositeKey st →
  fileCheckStatus partialKey
    (checkFile compositeKey partialKey st stackId path) stackId path =
    if decide (selectByPrefix (hunkAssignments st)
                 (partialKey stackId (Some path)) = [])
    then unchecked else checked.
Proof.
  intros Hinv.
  pose proof (checkPrefix_selects st stackId (partialKey stackId (Some path))
                Hinv) as Hsel.
  fold (checkFile compositeKey partialKey st stackId path) in Hsel.
  pose proof Hsel as (_ & Has & _). rewrite <- Has.
  apply fileCheckStatus_whole; [by apply state_inv_checkPrefix|].
  intros a.
  apply (selects_whole st _ stackId _ _ a Hinv Hsel (prefix_within_refl _)).
Qed.

(** X3. After [checkDir] the folder status, and after [checkStack] the
    stack status, is [checked] when an assignment matches the prefix and
    [unchecked] when none does. *)
Theorem X3_checkDir_checkStack_status st stackId path :
  state_inv compositeKey st →
  folderCheckStatus compositeKey prefixKey
    (checkDir compositeKey prefixKey st stackId path) stackId path =
    (if decide (selectByPrefix (hunkAssignments st)
                  (prefixKey stackId path) = [])
     then unchecked else checked)
  ∧ stackCheckStatus compositeKey partialKey
      (checkStack compositeKey partialKey st stackId) stackId =
      (if decide (selectByPrefix (hunkAssignments st)
                    (partialKey stackId None) = [])
       then unchecked else checked).
Proof.
  intros Hinv.
  assert (Hgen : ∀ prefix,
    prefixCheckStatus compositeKey
      (checkAll compositeKey st stackId
         (selectByPrefix (hunkAssignments st) prefix)) prefix =
      if decide (selectByPrefix (hunkAssignments st) prefix = [])
      then unchecked else checked).
  { intros prefix.
    pose proof (checkPrefix_selects st stackId prefix Hinv) as Hsel.
    set (st' := checkAll compositeKey st stackId _) in *.
    pose proof Hsel as (_ & Has & _). rewrite <- Has.
    apply prefixCheckStatus_all. intros a Ha.
    destruct (selects_whole st _ stackId prefix prefix a Hinv Hsel
                (prefix_within_refl _) Ha) as (sel & Hs & _).
    unfold has_selection. rewrite Hs. eauto. }
  split; apply Hgen.
Qed.

(** X4. When every key matched by the folder prefix, and by the file
    prefix, is matched by the stack prefix, [checkStack] leaves no folder
    and no file of the stack [indeterminate]: each is [checked] when it
    has an assignment and [unchecked] when it has none. *)
Theorem X4_checkStack_covers st stackId dir file :
  state_inv compositeKey st →
  prefix_within (prefixKey stackId dir) (partialKey stackId None) →
  prefix_within (partialKey stackId (Some file)) (partialKey stackId None) →
  let st' := checkStack compositeKey partialKey st stackId in
  folderCheckStatus compositeKey prefixKey st' stackId dir =
    (if decide (selectByPrefix (hunkAssignments st)
                  (prefixKey stackId dir) = [])
     then unchecked else checked)
  ∧ fileCheckStatus partialKey st' stackId file =
      (if decide (selectByPrefix (hunkAssignments st)
                    (partialKey stackId (Some file)) = [])
       then unchecked else checked).
Proof.
  intros Hinv Hdir Hfile st'.
  pose proof (checkPrefix_selects st stackId (partialKey stackId None) Hinv)
    as Hsel.
  fold (checkStack compositeKey partialKey st stackId) in Hsel. fold st' in Hsel.
  pose proof Hsel as (_ & Has & _). rewrite <- Has. split.
  - apply prefixCheckStatus_all. intros a Ha.
    destruct (selects_whole st _ stackId _ _ a Hinv Hsel Hdir Ha)
      as (sel & Hs & _).
    unfold has_selection. rewrite Hs. eauto.
  - apply fileCheckStatus_whole; [by apply state_inv_checkPrefix|].
    intros a. apply (selects_whole st _ stackId _ _ a Hinv Hsel Hfile).
Qed.

(** X5. [uncheckFile], [uncheckDir] and [uncheckStack] remove exactly the
    selections whose key starts with their prefix; every other selection,
    the assignments and the tree changes stay as they were. *)
Theorem X5_uncheck_clears_prefix st stackId path :
  state_inv compositeKey st →
  clears_under st (uncheckFile partialKey st stackId path)
    (partialKey stackId (Some path))
  ∧ clears_under st (uncheckDir prefixKey st stackId path)
      (prefixKey stackId path)
  ∧ clears_under st (uncheckStack partialKey st stackId)
      (partialKey stackId None).
Proof. intros Hinv. repeat split; by apply uncheckPrefix_clears. Qed.

(** X6. After [uncheckFile] the file status, after [uncheckDir] the folder
    status and after [uncheckStack] the stack status is [unchecked]. *)
Theorem X6_uncheck_status st stackId path :
  state_inv compositeKey st →
  fileCheckStatus partialKey (uncheckFile partialKey st stackId path)
    stackId path = unchecked
  ∧ folderCheckStatus compositeKey prefixKey
      (uncheckDir prefixKey st stackId path) stackId path = unchecked
  ∧ stackCheckStatus compositeKey partialKey
      (uncheckStack partialKey st stackId) stackId = unchecked.
Proof.
  intros Hinv.
  assert (Hgen : ∀ prefix,
    prefixCheckStatus compositeKey (uncheckPrefix st prefix) prefix
      = unchecked).
  { intros prefix. apply prefixCheckStatus_none. intros a.
    by apply (clears_unselected st _ prefix prefix a Hinv
                (uncheckPrefix_clears st prefix Hinv) (prefix_within_refl _)). }
  split; [|split; apply Hgen].
  unfold fileCheckStatus, uncheckFile.
  by rewrite (clears_no_selection st _ _ _
                (uncheckPrefix_clears st _ Hinv) (prefix_within_refl _)).
Qed.

(** X7. When every key matched by the folder prefix, and by the file
    prefix, is matched by the stack prefix, [uncheckStack] leaves every
    folder and every file of the stack [unchecked]. *)
Theorem X7_uncheckStack_covers st stackId dir file :
  state_inv compositeKey st →
  prefix_within (prefixKey stackId dir) (partialKey stackId None) →
  prefix_within (partialKey stackId (Some file)) (partialKey stackId None) →
  let st' := uncheckStack partialKey st stackId in
  folderCheckStatus compositeKey prefixKey st' stackId dir = unchecked
  ∧ fileCheckStatus partialKey st' stackId file = unchecked.
Proof.
  intros Hinv Hdir Hfile st'.
  pose proof (uncheckPrefix_clears st (partialKey stackId None) Hinv) as Hclr.
  fold (uncheckStack partialKey st stackId) in Hclr. fold st' in Hclr. split.
  - apply prefixCheckStatus_none. intros a.
    by apply (clears_unselected st _ _ _ a Hinv Hclr).
  - unfold fileCheckStatus.
    by rewrite (clears_no_selection st _ _ _ Hclr Hfile).
Qed.


End PrefixFacts.

(** * Round trips, failures and frames *)

Section ReducerFacts.
Variable compositeKey : option string → string → option HunkHeader → string.
Variable partialKey : option string → option string → string.
Variable prefixKey : option string → string → string.

Implicit Types (st : UncommittedState) (a : HunkAssignment.t).

Lemma setSelection_same st : setSelection st (hunkSelection st) = st.
Proof. by destruct st. Qed.

(** X9. Checking a hunk that has no selection and unchecking it again
    gives back the very state, whether or not the hunk has an
    assignment. *)
Theorem X9_checkHunk_uncheckHunk st stackId path hunkHeader :
  state_inv compositeKey st →
  selectById (hunkSelection st) (compositeKey stackId path hunkHeader) = None →
  uncheckHunk compositeKey
    (checkHunk compositeKey st stackId path hunkHeader)
    stackId path hunkHeader = st.
Proof.
  intros (_ & _ & Hwf & _) Hnone. unfold checkHunk, uncheckHunk.
  destruct (selectById (hunkAssignments st) _) as [a|].
  - simpl. unfold setSelection. simpl.
    set (e := wholeHunk stackId a (compositeKey stackId path hunkHeader)).
    rewrite (upsertOne_absent hunkSelectionId (hunkSelection st) e)
      by exact Hnone.
    change (compositeKey stackId path hunkHeader) with (hunkSelectionId e).
    rewrite removeOne_addOne by (done || exact Hnone). by destruct st.
  - rewrite removeOne_absent by done. apply setSelection_same.
Qed.

(** X10. Checking a line of a hunk that has no selection and unchecking
    the same line again gives back the very state. *)
Theorem X10_checkLine_uncheckLine st stackId path hunkHeader line
    allLinesInHunk a :
  let key := compositeKey stackId path (Some hunkHeader) in
  state_inv compositeKey st →
  selectById (hunkSelection st) key = None →
  selectById (hunkAssignments st) key = Some a →
  HunkAssignment.hunkHeader a ≠ None →
  ∃ st1,
    checkLine compositeKey st stackId path hunkHeader line = Ok st1
    ∧ uncheckLine compositeKey st1 stackId path hunkHeader line allLinesInHunk
        = Ok st.
Proof.
  intros key (_ & _ & Hwf & _) Hnone Ha Hhdr.
  unfold checkLine. fold key. rewrite Hnone, Ha.
  eexists. split; [reflexivity|].
  set (e := HunkSelection.mk _ _ _ _ _).
  unfold uncheckLine, uncheckLineUntyped. fold key. unfold selectById at 1. simpl.
  rewrite addOne_lookup. unfold selectById in Hnone. rewrite Hnone.
  rewrite decide_True by done. simpl. rewrite Ha.
  destruct (HunkAssignment.hunkHeader a) as [h|]; [|done].
  simpl. rewrite filter_cons.
  destruct (decide (otherLine line line)) as [[Hne|Hne]|_]; [done|done|].
  rewrite filter_nil. unfold storeLines. simpl. f_equal.
  unfold setSelection. simpl.
  change key with (hunkSelectionId e). rewrite removeOne_addOne by done.
  by destruct st.
Qed.

(** X11. In a state satisfying the store invariant [uncheckLine] never
    throws the expected-assignment error: a selection it finds always has
    its assignment. *)
Theorem X11_uncheckLine_finds_assignment st stackId path hunkHeader line
    allLinesInHunk key :
  state_inv compositeKey st →
  uncheckLine compositeKey st stackId path hunkHeader line allLinesInHunk
    ≠ Throw (ExpectedAssignment key).
Proof.
  intros Hinv. pose proof Hinv as (_ & _ & _ & Hsub).
  unfold uncheckLine, uncheckLineUntyped.
  destruct (selectById (hunkSelection st) _) as [sel|] eqn:Hsel; [|done].
  pose proof (selection_key _ _ _ _ Hinv Hsel) as Hkey.
  destruct (Hsub _ (ex_intro _ sel Hsel)) as [a Ha].
  rewrite Hkey. unfold selectById at 1. rewrite Ha.
  destruct (HunkAssignment.hunkHeader a) as [h|]; [|done].
  by case_bool_decide.
Qed.

(** X12. Only [update] touches the snapshot: every other reducer leaves
    the tree changes and the assignments as they were. *)
Theorem X12_snapshot_frame st action st' :
  reduce compositeKey partialKey prefixKey st action = Ok st' →
  (∀ assignments changes, action ≠ Update assignments changes) →
  treeChanges st' = treeChanges st ∧ hunkAssignments st' = hunkAssignments st.
Proof.
  intros Hred Hnot. destruct action; simpl in Hred;
    try (injection Hred as <-);
    try (by apply checkAll_frame); try done.
  - by destruct (Hnot assignments changes).
  - unfold checkLine in Hred.
    destruct (selectById (hunkSelection st) _); [by injection Hred as <-|].
    destruct (selectById (hunkAssignments st) _); [|done].
    by injection Hred as <-.
  - unfold uncheckLine, uncheckLineUntyped, storeLines in Hred.
    destruct (selectById (hunkSelection st) _); [|by injection Hred as <-].
    destruct (selectById (hunkAssignments st) _) as [a|]; [|done].
    destruct (HunkAssignment.hunkHeader a); [|done].
    repeat case_bool_decide; by injection Hred as <-.
  - unfold checkHunk. by destruct (selectById (hunkAssignments st) _).
Qed.

Lemma length_omap_le {A B : Type} (f : A → option B) (l : list A) :
  (length (omap f l) ≤ length l)%nat.
Proof.
  induction l as [|x l IH]; simpl; [lia|].
  change (list_omap A B f l) with (omap f l).
  destruct (f x); simpl; lia.
Qed.

(** X13. Replacing the snapshot never leaves more selections than there
    were, and a snapshot without assignments leaves none. *)
Theorem X13_update_selection_count st assignments changes :
  (length (ids (hunkSelection (update compositeKey st assignments changes)))
     ≤ length (ids (hunkSelection st)))%nat
  ∧ hunkSelection (update compositeKey st [] changes) = getInitialState.
Proof.
  split.
  - rewrite update_selection.
    etrans; [apply addMany_ids_length|]. simpl.
    rewrite length_map. unfold links, selectAll.
    etrans; [apply length_omap_le|]. apply length_omap_le.
  - rewrite update_selection. unfold links. simpl.
    assert (Hnil : ∀ l : list HunkSelection.t,
              omap (λ old, (∅ : gmap string HunkAssignment.t)
                             !! oldLinkKey old) l = []).
    { induction l as [|x l IH]; [done|]. simpl. by rewrite lookup_empty. }
    unfold newMap. simpl. by rewrite Hnil.
Qed.


(** X14. In every reachable state the three collections are well formed:
    the id list has no duplicates and lists exactly the keys that hold an
    entity, and every entity is stored under its own id (a tree change
    under its path, an assignment under its composite key, a selection
    under its [assignmentId]). *)
Theorem X14_collections_well_formed st :
  reachable compositeKey partialKey prefixKey st →
  wf_entities treeChangeId (treeChanges st)
  ∧ wf_entities (hunkAssignmentId compositeKey) (hunkAssignments st)
  ∧ wf_entities hunkSelectionId (hunkSelection st).
Proof.
  intros (Htc & Has & Hsel & _)%reachable_inv.
  split; [done|]. by split.
Qed.

(** X15. [uncheckHunk] removes the selection under its key and nothing
    else, for a hunk and for a whole file (null header) alike, so a hunk
    reads as not selected afterwards; it needs neither a selection nor an
    assignment to be there. *)
Theorem X15_uncheckHunk_removes st stackId path :
  (∀ hunkHeader : option HunkHeader,
     selection_set_to st
       (uncheckHunk compositeKey st stackId path hunkHeader)
       (compositeKey stackId path hunkHeader) None)
  ∧ (∀ hunkHeader : HunkHeader,
       hunkCheckStatus compositeKey
         (uncheckHunk compositeKey st stackId path (Some hunkHeader))
         stackId path hunkHeader = (false, [])).
Proof.
  split; intros hunkHeader.
  - split; [done|]. split; [done|]. intros k. unfold selectById. simpl.
    apply removeOne_lookup.
  - unfold hunkCheckStatus. simpl. rewrite removeOne_lookup.
    by rewrite decide_True.
Qed.

(** X16. Checking a line of a wholly selected hunk narrows the selection:
    the line list was empty, so afterwards the given line is the only one
    selected. *)
Theorem X16_checkLine_narrows st stackId path hunkHeader line sel :
  state_inv compositeKey st →
  selectById (hunkSelection st) (compositeKey stackId path (Some hunkHeader))
    = Some sel →
  HunkSelection.lines sel = [] →
  ∃ st',
    checkLine compositeKey st stackId path hunkHeader line = Ok st'
    ∧ hunkCheckStatus compositeKey st' stackId path hunkHeader
        = (true, [line]).
Proof.
  intros Hinv Hsel Hlines.
  destruct (checkLine_existing compositeKey st stackId path hunkHeader line
              sel Hinv Hsel) as (st' & Hst' & _ & _ & Hlk).
  exists st'. split; [done|]. unfold hunkCheckStatus.
  specialize (Hlk (compositeKey stackId path (Some hunkHeader))).
  unfold selectById in Hlk. rewrite Hlk, decide_True by done.
  simpl. by rewrite Hlines.
Qed.

Lemma checkAll_stored st stackId l :
  (∀ a, a ∈ l →
     selectById (hunkSelection st) (assignmentKey compositeKey a)
       = Some (wholeHunk stackId a (assignmentKey compositeKey a))) →
  checkAll compositeKey st stackId l = st.
Proof.
  unfold checkAll. induction l as [|x l IH]; intros Hl; [done|]. simpl.
  rewrite upsertOne_stored by (apply Hl; by left).
  rewrite setSelection_same. apply IH. intros a Ha. apply Hl. by right.
Qed.

(** X17. [checkFile], [checkDir] and [checkStack] are idempotent:
    applying one of them a second time yields the very same state. *)
Theorem X17_check_prefix_idempotent st stackId path :
  state_inv compositeKey st →
  checkFile compositeKey partialKey
    (checkFile compositeKey partialKey st stackId path) stackId path
    = checkFile compositeKey partialKey st stackId path
  ∧ checkDir compositeKey prefixKey
      (checkDir compositeKey prefixKey st stackId path) stackId path
      = checkDir compositeKey prefixKey st stackId path
  ∧ checkStack compositeKey partialKey
      (checkStack compositeKey partialKey st stackId) stackId
      = checkStack compositeKey partialKey st stackId.
Proof.
  intros Hinv.
  assert (Hgen : ∀ prefix,
    let st1 := checkAll compositeKey st stackId
                 (selectByPrefix (hunkAssignments st) prefix) in
    checkAll compositeKey st1 stackId
      (selectByPrefix (hunkAssignments st1) prefix) = st1).
  { intros prefix st1.
    pose proof (checkPrefix_selects compositeKey st stackId prefix Hinv)
      as (_ & Has & Hlk).
    fold st1 in Has, Hlk. rewrite Has.
    apply checkAll_stored. intros a Ha. rewrite Hlk.
    pose proof (selectByPrefix_assignment_key compositeKey st prefix a Hinv Ha)
      as Hst.
    unfold selectById. rewrite Hst.
    apply elem_of_selectByPrefix in Ha as (k & _ & Hpre & Hk).
    destruct Hinv as (_ & (_ & _ & Hid) & _).
    apply Hid in Hk. unfold hunkAssignmentId in Hk. by rewrite Hk, Hpre. }
  split; [|split]; apply Hgen.
Qed.

End ReducerFacts.

(** * The changes of a stack *)

Section StackChangeFacts.
Variable compositeKey : option string → string → option HunkHeader → string.
Variable partialKey : option string → option string → string.
Variable prefixKey : option string → string → string.

Implicit Types (st : UncommittedState) (c : TreeChange.t).

Lemma map_selectAll_ids {T : Type} (selectId : T → string)
    (es : EntityState T) :
  wf_entities selectId es → map selectId (selectAll es) = ids es.
Proof.
  intros (_ & Hdom & Hid). unfold selectAll.
  assert (Hgen : ∀ l, (∀ k, k ∈ l → k ∈ ids es) →
            map selectId (omap (λ id, entities es !! id) l) = l).
  { induction l as [|k l IH]; intros Hl; [done|]. simpl.
    destruct (proj1 (Hdom k) (Hl k ltac:(by left))) as [e He].
    rewrite He. simpl.
    change (list_omap string T (λ id, entities es !! id) l)
      with (omap (λ id, entities es !! id) l).
    rewrite IH by (intros k' Hk'; apply Hl; by right).
    by rewrite (Hid k e He). }
  by apply Hgen.
Qed.

Lemma NoDup_fmap_filter {A B : Type} (f : A → B) (P : A → Prop)
    `{∀ x, Decision (P x)} (l : list A) :
  NoDup (f <$> l) → NoDup (f <$> filter P l).
Proof.
  induction l as [|x l IH]; [done|].
  rewrite fmap_cons, NoDup_cons. intros [Hx Hnd].
  rewrite filter_cons. case_decide; [|by apply IH].
  rewrite fmap_cons, NoDup_cons. split; [|by apply IH].
  intros (y & Hxy & [_ Hy]%list_elem_of_filter)%list_elem_of_fmap.
  apply Hx, list_elem_of_fmap. eauto.
Qed.

Lemma elem_of_selectByStackId st stackId c :
  c ∈ selectByStackId st stackId ↔
    c ∈ selectAll (treeChanges st)
    ∧ ∃ k a, entities (hunkAssignments st) !! k = Some a
             ∧ HunkAssignment.stackId a = stackId
             ∧ HunkAssignment.path a = TreeChange.path c.
Proof.
  unfold selectByStackId. rewrite list_elem_of_filter, elem_of_list_to_set.
  rewrite list_elem_of_fmap. split.
  - intros [(a & Hp & [Hs Ha]%list_elem_of_filter) Hc]. split; [done|].
    apply list_elem_of_fmap in Ha as ([k a'] & -> & Hka).
    apply elem_of_map_to_list in Hka. by exists k, a'.
  - intros [Hc (k & a & Hka & Hs & Hp)]. split; [|done].
    exists a. split; [done|]. apply list_elem_of_filter. split; [done|].
    apply list_elem_of_fmap. exists (k, a). split; [done|].
    by apply elem_of_map_to_list.
Qed.

Lemma selectByStackId_snapshot st st' stackId :
  treeChanges st' = treeChanges st →
  hunkAssignments st' = hunkAssignments st →
  selectByStackId st' stackId = selectByStackId st stackId.
Proof. intros Htc Has. unfold selectByStackId. by rewrite Htc, Has. Qed.

(** X18. [selectByStackId] lists a tree change exactly when some stored
    assignment of the stack (the unassigned ones for the null stack id)
    has its path, and it lists a path at most once, however many hunks of
    the file the stack holds. *)
Theorem X18_selectByStackId st stackId :
  state_inv compositeKey st →
  (∀ c, c ∈ selectByStackId st stackId ↔
          c ∈ selectAll (treeChanges st)
          ∧ ∃ k a, entities (hunkAssignments st) !! k = Some a
                   ∧ HunkAssignment.stackId a = stackId
                   ∧ HunkAssignment.path a = TreeChange.path c)
  ∧ NoDup (map TreeChange.path (selectByStackId st stackId)).
Proof.
  intros (Hwf & _). split; [intros c; apply elem_of_selectByStackId|].
  unfold selectByStackId. apply (NoDup_fmap_filter TreeChange.path).
  change TreeChange.path with treeChangeId.
  change (treeChangeId <$> selectAll (treeChanges st))
    with (map treeChangeId (selectAll (treeChanges st))).
  rewrite (map_selectAll_ids treeChangeId _ Hwf). by destruct Hwf.
Qed.

(** X19. When every composite key starts with the partial key of its stack
    and with the prefix key of its stack and path, [checkStack] makes every
    change of the stack count as selected: [selectedByStackId] then lists
    what [selectByStackId] lists. *)
Theorem X19_checkStack_selects_changes st stackId :
  state_inv compositeKey st →
  (∀ p h, startsWith (compositeKey stackId p h) (partialKey stackId None)
          = true) →
  (∀ p h, startsWith (compositeKey stackId p h) (prefixKey stackId p) = true) →
  selectedByStackId prefixKey
    (checkStack compositeKey partialKey st stackId) stackId
    = selectByStackId st stackId.
Proof.
  intros Hinv Hstack Hpath.
  pose proof (checkPrefix_selects compositeKey st stackId
                (partialKey stackId None) Hinv) as (Htc & Has & Hlk).
  pose proof (state_inv_checkPrefix compositeKey st stackId
                (partialKey stackId None) Hinv) as (_ & _ & (_ & Hdom' & _) & _).
  fold (checkStack compositeKey partialKey st stackId) in Htc, Has, Hlk, Hdom'.
  set (st' := checkStack compositeKey partialKey st stackId) in *.
  unfold selectedByStackId.
  rewrite (selectByStackId_snapshot st st' stackId Htc Has).
  apply filter_all. intros c (_ & k & a & Hka & Hs & Hp)%elem_of_selectByStackId.
  destruct Hinv as (_ & (_ & _ & Hid) & _).
  apply Hid in Hka as Hkey. unfold hunkAssignmentId, assignmentKey in Hkey.
  rewrite Hs, Hp in Hkey.
  apply Exists_exists. exists k. split.
  - apply Hdom'. specialize (Hlk k). unfold selectById in Hlk.
    rewrite Hlk, Hka, <- Hkey, Hstack. eauto.
  - rewrite <- Hkey. apply Hpath.
Qed.

(** X20. When every key matched by a prefix key of the stack is matched by
    the partial key of the stack, [uncheckStack] leaves no change of the
    stack counted as selected. *)
Theorem X20_uncheckStack_deselects_changes st stackId :
  state_inv compositeKey st →
  (∀ p, prefix_within (prefixKey stackId p) (partialKey stackId None)) →
  selectedByStackId prefixKey (uncheckStack partialKey st stackId) stackId
    = [].
Proof.
  intros Hinv Hin.
  pose proof (uncheckPrefix_clears compositeKey st (partialKey stackId None)
                Hinv) as (_ & _ & Hlk).
  pose proof (state_inv_uncheckPrefix compositeKey st
                (partialKey stackId None) Hinv)
    as (_ & _ & (_ & Hdom' & _) & _).
  fold (uncheckStack partialKey st stackId) in Hlk, Hdom'.
  unfold selectedByStackId. apply filter_none.
  intros c _ (k & Hk & Hpre)%Exists_exists.
  apply Hdom' in Hk as [sel Hsel]. specialize (Hlk k).
  unfold selectById in Hlk. rewrite (Hin _ k Hpre) in Hlk. congruence.
Qed.

End StackChangeFacts.

(** * Line selections and cleared stacks *)

Section StatusFacts.
Variable compositeKey : option string → string → option HunkHeader → string.
Variable partialKey : option string → option string → string.

Implicit Types (st : UncommittedState).

(** X21. A selection with an explicit line list under the prefix of a file
    makes the status of the file [indeterminate]: the file is neither
    [unchecked] nor, whatever else is selected, [checked]. *)
Theorem X21_line_selection_indeterminate st stackId path sel :
  sel ∈ selectByPrefix (hunkSelection st) (partialKey stackId (Some path)) →
  HunkSelection.lines sel ≠ [] →
  fileCheckStatus partialKey st stackId path = indeterminate.
Proof.
  intros Hsel Hlines. unfold fileCheckStatus.
  set (sels := selectByPrefix (hunkSelection st) _) in *.
  rewrite bool_decide_eq_false_2
    by (destruct sels; [by apply elem_of_nil in Hsel|done]).
  assert (Hall : forallb
            (λ x, bool_decide (length (HunkSelection.lines x) = 0%nat)) sels
            = false).
  { destruct (forallb _ sels) eqn:Hf; [|done].
    rewrite forallb_elem_of in Hf. apply Hf, bool_decide_eq_true in Hsel.
    by apply nil_length_inv in Hsel. }
  rewrite Hall. by rewrite andb_false_r.
Qed.

(** X22. When every key of a stack starts with the text of its stack id,
    [clearHunkSelection] leaves the stack [unchecked]. *)
Theorem X22_clearHunkSelection_status st stackId :
  state_inv compositeKey st →
  prefix_within (partialKey stackId None) (template stackId) →
  stackCheckStatus compositeKey partialKey
    (clearHunkSelection st stackId) stackId = unchecked.
Proof.
  intros Hinv Hin. apply prefixCheckStatus_none. intros a.
  apply (clears_unselected compositeKey st _ (template stackId) _ a Hinv);
    [|done].
  destruct Hinv as (_ & _ & Hwf & _).
  split; [done|]. split; [done|]. intros k. unfold selectById. simpl.
  rewrite (removeMany_where hunkSelectionId _ _
             (λ k, startsWith k (template stackId) = true)); [|done|].
  - case_decide as Hp; [by rewrite Hp|].
    by destruct (startsWith k (template stackId)).
  - intros k'. rewrite list_elem_of_filter. split; by intros [? ?].
Qed.

End StatusFacts.

(** * The key scheme and the scenario, continued *)

Section SpecKeysFacts.
Import SpecKeys.

Lemma string_app_cons (x : Ascii.ascii) (a b : string) :
  String x a +:+ b = String x (a +:+ b).
Proof. reflexivity. Qed.

Lemma string_app_assoc (a b c : string) : (a +:+ b) +:+ c = a +:+ (b +:+ c).
Proof.
  induction a as [|x a IH]; [done|]. rewrite !string_app_cons. by f_equal.
Qed.

Lemma startsWith_app (a b : string) : startsWith (a +:+ b) a = true.
Proof.
  unfold startsWith. induction a as [|x a IH]; [by destruct b|].
  rewrite string_app_cons. simpl. by destruct (Ascii.ascii_dec x x).
Qed.

Lemma startsWith_app_l (a b k : string) :
  startsWith k (a +:+ b) = true → startsWith k a = true.
Proof.
  unfold startsWith. revert k.
  induction a as [|x a IH]; intros k; [by destruct k|].
  rewrite string_app_cons. destruct k as [|y k]; simpl; [done|].
  destruct (Ascii.ascii_dec x y); [apply IH|done].
Qed.

(** The modelled key scheme nests its prefixes: a key under a folder or a
    file of a stack is a key of the stack, and a composite key lies under
    the prefixes built from its own stack id and path. *)
Lemma prefixKey_within stackId p :
  prefix_within (prefixKey stackId p) (partialKey stackId None).
Proof.
  intros k. unfold prefixKey, partialKey.
  rewrite <- string_app_assoc. apply startsWith_app_l.
Qed.

Lemma partialKey_within stackId p :
  prefix_within (partialKey stackId (Some p)) (partialKey stackId None).
Proof.
  intros k. unfold partialKey.
  rewrite <- string_app_assoc. apply startsWith_app_l.
Qed.

Lemma compositeKey_in_stack stackId p h :
  startsWith (compositeKey stackId p h) (partialKey stackId None) = true.
Proof.
  unfold compositeKey, partialKey.
  rewrite <- string_app_assoc. apply startsWith_app.
Qed.

Lemma compositeKey_in_path stackId p h :
  startsWith (compositeKey stackId p h) (prefixKey stackId p) = true.
Proof.
  unfold compositeKey, prefixKey.
  rewrite <- (string_app_assoc "|" p), <- string_app_assoc.
  apply startsWith_app.
Qed.
End SpecKeysFacts.

Section ScenarioWitnesses.
Import SpecKeys Scenario.


(** Witness of X2 in the scenario. *)
Lemma X2_witness :
  fileCheckStatus partialKey
    (checkFile compositeKey partialKey oneLine (Some "a") "f.txt")
    (Some "a") "f.txt" = checked.
Proof.
  exact (X2_checkFile_status compositeKey partialKey oneLine (Some "a") "f.txt"
           (run_inv _)).
Defined.

(** Witness of X3 in the scenario. *)
Lemma X3_witness :
  folderCheckStatus compositeKey prefixKey
    (checkDir compositeKey prefixKey oneLine (Some "a") "img") (Some "a") "img"
    = checked
  ∧ stackCheckStatus compositeKey partialKey
      (checkStack compositeKey partialKey oneLine (Some "a")) (Some "a")
      = checked.
Proof.
  exact (X3_checkDir_checkStack_status compositeKey partialKey prefixKey
           oneLine (Some "a") "img" (run_inv _)).
Defined.

(** Witness of X4 in the scenario. *)
Lemma X4_witness :
  folderCheckStatus compositeKey prefixKey
    (checkStack compositeKey partialKey oneLine (Some "a")) (Some "a") "img"
    = checked
  ∧ fileCheckStatus partialKey
      (checkStack compositeKey partialKey oneLine (Some "a")) (Some "a") "f.txt"
      = checked.
Proof.
  exact (X4_checkStack_covers compositeKey partialKey prefixKey oneLine
           (Some "a") "img" "f.txt" (run_inv _) (prefixKey_within _ _)
           (partialKey_within _ _)).
Defined.

(** Witness of X5 in the scenario. *)
Lemma X5_witness :
  clears_under oneLine (uncheckFile partialKey oneLine (Some "a") "f.txt")
    (partialKey (Some "a") (Some "f.txt"))
  ∧ clears_under oneLine (uncheckDir prefixKey oneLine (Some "a") "f.txt")
      (prefixKey (Some "a") "f.txt")
  ∧ clears_under oneLine (uncheckStack partialKey oneLine (Some "a"))
      (partialKey (Some "a") None).
Proof.
  apply (X5_uncheck_clears_prefix compositeKey partialKey prefixKey oneLine
           (Some "a") "f.txt"), run_inv.
Defined.

(** Witness of X6 in the scenario. *)
Lemma X6_witness :
  fileCheckStatus partialKey (uncheckFile partialKey oneLine (Some "a") "f.txt")
    (Some "a") "f.txt" = unchecked
  ∧ folderCheckStatus compositeKey prefixKey
      (uncheckDir prefixKey oneLine (Some "a") "f.txt") (Some "a") "f.txt"
      = unchecked
  ∧ stackCheckStatus compositeKey partialKey
      (uncheckStack partialKey oneLine (Some "a")) (Some "a") = unchecked.
Proof.
  apply (X6_uncheck_status compositeKey partialKey prefixKey oneLine
           (Some "a") "f.txt"), run_inv.
Defined.

(** Witness of X7 in the scenario. *)
Lemma X7_witness :
  folderCheckStatus compositeKey prefixKey
    (uncheckStack partialKey oneLine (Some "a")) (Some "a") "f" = unchecked
  ∧ fileCheckStatus partialKey
      (uncheckStack partialKey oneLine (Some "a")) (Some "a") "f.txt"
      = unchecked.
Proof.
  apply (X7_uncheckStack_covers compositeKey partialKey prefixKey oneLine
           (Some "a") "f" "f.txt");
    [apply run_inv|apply prefixKey_within|apply partialKey_within].
Defined.


(** Witness of X9 in the scenario. *)
Lemma X9_witness :
  uncheckHunk compositeKey
    (checkHunk compositeKey snapshot (Some "a") "f.txt" (Some H1))
    (Some "a") "f.txt" (Some H1) = snapshot.
Proof.
  apply (X9_checkHunk_uncheckHunk compositeKey snapshot (Some "a") "f.txt"
           (Some H1)); [apply run_inv|by vm_compute].
Defined.

(** Witness of X10 in the scenario. *)
Lemma X10_witness :
  ∃ st1,
    checkLine compositeKey snapshot (Some "a") "f.txt" H1 L1 = Ok st1
    ∧ uncheckLine compositeKey st1 (Some "a") "f.txt" H1 L1 [L1; L2; L3]
        = Ok snapshot.
Proof.
  apply (X10_checkLine_uncheckLine compositeKey snapshot (Some "a") "f.txt" H1
           L1 [L1; L2; L3] hunk1);
    [apply run_inv|by vm_compute|by vm_compute|done].
Defined.

(** Witness of X11 in the scenario. *)
Lemma X11_witness :
  uncheckLine compositeKey oneHunk (Some "a") "f.txt" H1 L1 [L1; L2; L3]
    ≠ Throw (ExpectedAssignment (compositeKey (Some "a") "f.txt" (Some H1))).
Proof.
  apply (X11_uncheckLine_finds_assignment compositeKey oneHunk), run_inv.
Defined.

(** Witness of X12 in the scenario. *)
Lemma X12_witness :
  treeChanges (checkFile compositeKey partialKey oneHunk (Some "a") "f.txt")
    = treeChanges oneHunk
  ∧ hunkAssignments (checkFile compositeKey partialKey oneHunk (Some "a") "f.txt")
      = hunkAssignments oneHunk.
Proof.
  apply (X12_snapshot_frame compositeKey partialKey prefixKey oneHunk
           (CheckFile (Some "a") "f.txt")); [reflexivity|discriminate].
Defined.


(** Witness of X14 in the scenario. *)
Lemma X14_witness :
  wf_entities treeChangeId (treeChanges oneLine)
  ∧ wf_entities (hunkAssignmentId compositeKey) (hunkAssignments oneLine)
  ∧ wf_entities hunkSelectionId (hunkSelection oneLine).
Proof.
  apply (X14_collections_well_formed compositeKey partialKey prefixKey),
    run_reachable.
Defined.

(** Witness of X16 in the scenario. *)
Lemma X16_witness :
  ∃ st',
    checkLine compositeKey oneHunk (Some "a") "f.txt" H1 L2 = Ok st'
    ∧ hunkCheckStatus compositeKey st' (Some "a") "f.txt" H1 = (true, [L2]).
Proof.
  apply (X16_checkLine_narrows compositeKey oneHunk (Some "a") "f.txt" H1 L2
           (wholeHunk (Some "a") hunk1 (assignmentKey compositeKey hunk1)));
    [apply run_inv|by vm_compute|done].
Defined.

(** Witness of X17 in the scenario. *)
Lemma X17_witness :
  checkFile compositeKey partialKey
    (checkFile compositeKey partialKey oneLine (Some "a") "f.txt")
    (Some "a") "f.txt"
    = checkFile compositeKey partialKey oneLine (Some "a") "f.txt"
  ∧ checkDir compositeKey prefixKey
      (checkDir compositeKey prefixKey oneLine (Some "a") "f.txt")
      (Some "a") "f.txt"
      = checkDir compositeKey prefixKey oneLine (Some "a") "f.txt"
  ∧ checkStack compositeKey partialKey
      (checkStack compositeKey partialKey oneLine (Some "a")) (Some "a")
      = checkStack compositeKey partialKey oneLine (Some "a").
Proof.
  apply (X17_check_prefix_idempotent compositeKey partialKey prefixKey oneLine
           (Some "a") "f.txt"), run_inv.
Defined.

(** Witness of X18 in the scenario. *)
Lemma X18_witness :
  (∀ c, c ∈ selectByStackId oneLine (Some "a") ↔
          c ∈ selectAll (treeChanges oneLine)
          ∧ ∃ k a, entities (hunkAssignments oneLine) !! k = Some a
                   ∧ HunkAssignment.stackId a = Some "a"
                   ∧ HunkAssignment.path a = TreeChange.path c)
  ∧ NoDup (map TreeChange.path (selectByStackId oneLine (Some "a"))).
Proof.
  apply (X18_selectByStackId compositeKey oneLine (Some "a")), run_inv.
Defined.

(** Witness of X19 in the scenario. *)
Lemma X19_witness :
  selectedByStackId prefixKey
    (checkStack compositeKey partialKey oneLine (Some "a")) (Some "a")
    = selectByStackId oneLine (Some "a").
Proof.
  apply (X19_checkStack_selects_changes compositeKey partialKey prefixKey
           oneLine (Some "a"));
    [apply run_inv|apply compositeKey_in_stack|apply compositeKey_in_path].
Defined.

(** Witness of X20 in the scenario. *)
Lemma X20_witness :
  selectedByStackId prefixKey (uncheckStack partialKey oneLine (Some "a"))
    (Some "a") = [].
Proof.
  apply (X20_uncheckStack_deselects_changes compositeKey partialKey prefixKey
           oneLine (Some "a")); [apply run_inv|].
  intros p. apply prefixKey_within.
Defined.

(** The changes of stack [a] in the scenario: both files, each once, and
    only [f.txt] counts as selected when one of its lines is. *)
Example stack_changes_scenario :
  map TreeChange.path (selectByStackId oneLine (Some "a")) = ["f.txt"; "img.png"]
  ∧ map TreeChange.path (selectedByStackId prefixKey oneLine (Some "a"))
      = ["f.txt"]
  ∧ selectByStackId oneLine None = [].
Proof. by vm_compute. Qed.

(** Witness of X21 in the scenario. *)
Lemma X21_witness :
  fileCheckStatus partialKey oneLine (Some "a") "f.txt" = indeterminate.
Proof.
  apply (X21_line_selection_indeterminate partialKey oneLine (Some "a") "f.txt"
           (HunkSelection.mk (Some "S1") (Some "a") "f.txt"
              (assignmentKey compositeKey hunk1) [L1]));
    [|done].
  assert (Hsel : selectByPrefix (hunkSelection oneLine)
                   (partialKey (Some "a") (Some "f.txt"))
                 = [HunkSelection.mk (Some "S1") (Some "a") "f.txt"
                      (assignmentKey compositeKey hunk1) [L1]])
    by by vm_compute.
  rewrite Hsel. by left.
Defined.

(** Witness of X22 in the scenario. *)
Lemma X22_witness :
  stackCheckStatus compositeKey partialKey
    (clearHunkSelection oneLine (Some "a")) (Some "a") = unchecked.
Proof.
  apply (X22_clearHunkSelection_status compositeKey partialKey oneLine
           (Some "a")); [apply run_inv|].
  intros k. unfold partialKey. apply startsWith_app_l.
Defined.

(** The asymmetry between the levels: with one line of each hunk of
    [f.txt] selected and the image selected, the stack is [checked] while
    the file is [indeterminate]. *)
Example level_asymmetry :
  let st := run [load; CheckLine (Some "a") "f.txt" H1 L1;
                 CheckLine (Some "a") "f.txt" H2 L2;
                 CheckHunk (Some "a") "img.png" None] in
  stackCheckStatus compositeKey partialKey st (Some "a") = checked
  ∧ fileCheckStatus partialKey st (Some "a") "f.txt" = indeterminate.
Proof. by vm_compute. Qed.

End ScenarioWitnesses.
